(** * Abacus file loader and XLOOKUP tool: a shallow embedding of [app.py]

    The development follows the two computational parts of the script:
    the pipe-delimited text parser [parse_text_file] and the multi-rule
    lookup loop run under the [run_lookup] button.  Text is modelled as
    [string] (the file is decoded as latin-1, one byte per character),
    pandas frames as a column-label list plus a row list, Python
    exceptions as values of [exn] carried by [res], and the objects the
    script keeps in variables as locations of a small object heap. *)

From Stdlib Require Import ZArith Ascii String.
From stdpp Require Import base decidable option list numbers strings pretty functions gmap.

Local Open Scope list_scope.
Local Set Warnings "-clear-no-such-hyp".

(** ** Python values and exceptions *)

Module Py.

(** The exceptions that the modelled code paths raise: [open] on a file
    that cannot be opened, [df.iloc[0]] on a frame without rows, and, on
    frames whose column labels are pairwise distinct, the lookup of a
    label and [Series.map].  On frames with a repeated label pandas
    raises other exceptions ([TypeError], [ValueError]), and so may
    [export_df]; both are outside the model, and no statement below is
    made about them. *)
Inductive exn : Type :=
  | OSError
  | IndexError
  | KeyError (label : string)
  | InvalidIndexError.

(** Outcome of an expression that may raise. *)
Inductive res (A : Type) : Type :=
  | Ok (a : A)
  | Raise (e : exn).

Arguments Ok {A} a.
Arguments Raise {A} e.

(** [res] is an error monad; stdpp's [x ← r; k] notation sequences it. *)
Global Instance res_ret : MRet res := fun A a => Ok a.
Global Instance res_bind : MBind res := fun A B k r =>
  match r with
  | Ok a => k a
  | Raise e => Raise e
  end.

Global Instance res_fmap : FMap res := fun A B f r =>
  match r with
  | Ok a => Ok (f a)
  | Raise e => Raise e
  end.

(** *** Characters *)

Definition LF : ascii := "010"%char.
Definition CR : ascii := "013"%char.
Definition DQ : ascii := "034"%char.
Definition PIPE : ascii := "|"%char.

(** [str.isspace] on the code points a latin-1 decoded file can hold. *)
Definition isspace (c : ascii) : bool :=
  let n := nat_of_ascii c in
  ((9 <=? n)%nat && (n <=? 13)%nat) || ((28 <=? n)%nat && (n <=? 32)%nat)
  || (n =? 133)%nat || (n =? 160)%nat.

Definition is_char (a c : ascii) : bool := bool_decide (c = a).

(** *** String methods *)

Definition is_empty (s : string) : bool :=
  match s with
  | EmptyString => true
  | String _ _ => false
  end.

Fixpoint lstrip (p : ascii → bool) (s : string) : string :=
  match s with
  | EmptyString => EmptyString
  | String c r => if p c then lstrip p r else s
  end.

Fixpoint rstrip (p : ascii → bool) (s : string) : string :=
  match s with
  | EmptyString => EmptyString
  | String c r =>
      let r' := rstrip p r in
      if is_empty r' && p c then EmptyString else String c r'
  end.

(** [s.strip(chars)]: characters satisfying [p] are removed at both ends. *)
Definition strip_chars (p : ascii → bool) (s : string) : string :=
  rstrip p (lstrip p s).

(** [s.strip()] *)
Definition strip (s : string) : string := strip_chars isspace s.

(** [s.count(ch)] for a one-character argument. *)
Fixpoint count (a : ascii) (s : string) : nat :=
  match s with
  | EmptyString => 0
  | String c r => (if is_char a c then 1 else 0) + count a r
  end.

(** [s.replace(ch, '')] for a one-character argument. *)
Fixpoint remove_char (a : ascii) (s : string) : string :=
  match s with
  | EmptyString => EmptyString
  | String c r => if is_char a c then remove_char a r else String c (remove_char a r)
  end.

(** [s.split(sep)] for a one-character separator. *)
Fixpoint split (sep : ascii) (s : string) : list string :=
  match s with
  | EmptyString => [EmptyString]
  | String c r =>
      if is_char sep c then EmptyString :: split sep r
      else match split sep r with
           | h :: t => String c h :: t
           | [] => [String c EmptyString]
           end
  end.

(** *** Text files

    [open(path, 'r')] uses universal newlines: every [\r\n] and every lone
    [\r] reaches the program as [\n], and iterating the file yields the
    lines with their terminator. *)

Fixpoint universal_newlines (s : string) : string :=
  match s with
  | EmptyString => EmptyString
  | String c r =>
      if is_char CR c then
        match r with
        | String c' r' =>
            if is_char LF c' then String LF (universal_newlines r')
            else String LF (universal_newlines r)
        | EmptyString => String LF EmptyString
        end
      else String c (universal_newlines r)
  end.

Fixpoint keepends (s : string) : list string :=
  match s with
  | EmptyString => []
  | String c r =>
      if is_char LF c then String LF EmptyString :: keepends r
      else match keepends r with
           | h :: t => String c h :: t
           | [] => [String c EmptyString]
           end
  end.

Definition file_lines (content : string) : list string :=
  keepends (universal_newlines content).

End Py.

Import Py.

(** ** Data frames *)

(** A cell is a text value or the missing marker (NaN). *)
Abbreviation cell := (option string).

Record DataFrame : Type := mkDataFrame {
  columns : list string;
  rows : list (list cell)
}.

Global Instance DataFrame_eq_dec : EqDecision DataFrame.
Proof. solve_decision. Defined.

Definition rectangular (df : DataFrame) : Prop :=
  Forall (fun r => length r = length (columns df)) (rows df).

(** ** The parser: [parse_text_file] *)

Module Parser.

(** [line.replace(DQ, '')] when the line holds an odd number of double
    quotes. *)
Definition fix_quotes (line : string) : string :=
  if Nat.odd (count DQ line) then remove_char DQ line else line.

(** The branch on [col_count]: the first row fixes the width, later rows
    are padded or cut to it. *)
Definition fit_width (col_count : option nat) (parts : list string)
  : option nat * list string :=
  match col_count with
  | None => (Some (length parts), parts)
  | Some n =>
      if (length parts <? n)%nat then (col_count, parts ++ replicate (n - length parts) EmptyString)
      else if (n <? length parts)%nat then (col_count, take n parts)
      else (col_count, parts)
  end.

(** [p.strip().strip(DQ)] *)
Definition clean_field (p : string) : string :=
  strip_chars (is_char DQ) (strip p).

(** [nrows and len(rows) >= nrows] *)
Definition cap_reached (nrows : option Z) (rows : list (list string)) : bool :=
  match nrows with
  | None => false
  | Some k => negb (k =? 0)%Z && (k <=? Z.of_nat (length rows))%Z
  end.

(** The [for line in f] loop; [rows] and [col_count] are the loop's
    variables ([line_no] is counted by the script but never read). *)
Fixpoint read_rows (nrows : option Z) (lines : list string)
    (rows : list (list string)) (col_count : option nat) : list (list string) :=
  match lines with
  | [] => rows
  | line :: rest =>
      let line := strip (strip_chars (is_char LF) line) in
      if cap_reached nrows rows then rows
      else if is_empty line then read_rows nrows rest rows col_count
      else
        let line := fix_quotes line in
        let parts := split PIPE line in
        let '(col_count, parts) := fit_width col_count parts in
        let cleaned := map clean_field parts in
        read_rows nrows rest (rows ++ [cleaned]) col_count
  end.

(** [pd.DataFrame(rows)], then the first row becomes the header:
    [df.iloc[0]] raises [IndexError] on a frame with no row. *)
Definition build_frame (rows : list (list string)) : res DataFrame :=
  match rows with
  | [] => Raise IndexError
  | header :: data => Ok (mkDataFrame header (map (map Some) data))
  end.

(** [file] is what [open(path)] finds: [None] when the file cannot be
    opened, otherwise its decoded content. *)
Definition parse_text_file (file : option string) (nrows : option Z)
  : res DataFrame :=
  match file with
  | None => Raise OSError
  | Some content => build_frame (read_rows nrows (file_lines content) [] None)
  end.

End Parser.

Import Parser.

Definition NL : string := String LF EmptyString.

(** ** The pandas operations used by the lookup loop

    The model covers frames whose column labels are pairwise distinct (a
    label then selects one column); rows are kept in order and the row
    index is positional ([reset_index(drop=True)] in the parser).  For a
    label that occurs more than once pandas selects every column of that
    name ([df[label]] is then a frame, [set_index] builds its index from
    all of them); the definitions below take the first such column and
    are not meant for that case.  Every statement on how a rule ends
    therefore assumes distinct labels in both frames; the statements
    without that assumption hold however a rule ends. *)

Module Pandas.

(** A [Series] with its index labels and its values, position by position. *)
Record Series : Type := mkSeries {
  s_index : list cell;
  s_values : list cell
}.

(** Position of a label among the column labels: the place of the label
    when it occurs once (the first place otherwise). *)
Definition get_loc (label : string) (cols : list string) : option nat :=
  fst <$> list_find (fun c => c = label) cols.

Definition column_at (i : nat) (df : DataFrame) : list cell :=
  map (fun r => default None (r !! i)) (rows df).

(** [df[label]] for a label that names at most one column: the values of
    the column, [KeyError] for an unknown label. *)
Definition getitem (df : DataFrame) (label : string) : res (list cell) :=
  match get_loc label (columns df) with
  | Some i => Ok (column_at i df)
  | None => Raise (KeyError label)
  end.

(** [df.set_index(label)] with the defaults [drop=True], [inplace=False],
    for a label that names at most one column: the column becomes the
    index and leaves the columns; the result is a new frame (the index
    paired with what is left), [df] is not changed. *)
Definition set_index (df : DataFrame) (label : string)
  : res (list cell * DataFrame) :=
  match get_loc label (columns df) with
  | Some i =>
      Ok (column_at i df,
          mkDataFrame (delete i (columns df)) (map (delete i) (rows df)))
  | None => Raise (KeyError label)
  end.

(** [Index.get_indexer(targets)]: an index with repeated labels is refused
    with [InvalidIndexError] ('Reindexing only valid with uniquely valued
    Index objects'), before any target is looked at; otherwise the result
    is the position of every target, [None] (pandas: -1) for an absent one. *)
Definition get_indexer (index targets : list cell) : res (list (option nat)) :=
  if decide (NoDup index) then
    Ok (map (fun t => fst <$> list_find (fun k => k = t) index) targets)
  else Raise InvalidIndexError.

(** [take_nd(values, indexer)]: the missing marker fills absent positions. *)
Definition take_nd (values : list cell) (indexer : list (option nat)) : list cell :=
  map (fun oi => match oi with
                 | Some i => default None (values !! i)
                 | None => None
                 end) indexer.

(** [values.map(mapper)] with a [Series] as mapper: the values are looked
    up in the index of the mapper and the mapper's values are taken at the
    positions found. *)
Definition series_map (values : list cell) (mapper : Series) : res (list cell) :=
  indexer ← get_indexer (s_index mapper) values;
  Ok (take_nd (s_values mapper) indexer).

(** [df[label] = values] for values aligned with the rows of [df]: an
    existing column is overwritten, a new label is appended. *)
Definition setitem (df : DataFrame) (label : string) (values : list cell)
  : DataFrame :=
  match get_loc label (columns df) with
  | Some i =>
      mkDataFrame (columns df) (zip_with (fun r v => <[i:=v]> r) (rows df) values)
  | None =>
      mkDataFrame (columns df ++ [label])
                  (zip_with (fun r v => r ++ [v]) (rows df) values)
  end.

End Pandas.

Import Pandas.

(** ** The object heap

    Frames live in a heap and variables hold locations, so that an
    assignment through one variable is seen through every alias. *)

Abbreviation loc := nat (only parsing).

Record Heap : Type := mkHeap {
  next : loc;
  obj : loc → DataFrame
}.

Definition alloc (h : Heap) (df : DataFrame) : Heap * loc :=
  (mkHeap (S (next h)) (<[next h := df]> (obj h)), next h).

Definition store (h : Heap) (l : loc) (df : DataFrame) : Heap :=
  mkHeap (next h) (<[l := df]> (obj h)).

(** ** The lookup loop under the [run_lookup] button *)

Module Lookup.

(** A rule is the triple [(pk, sk, so)]. *)
Abbreviation Rule := (string * string * string)%type.

(** What [st.error] shows for a rule that failed. *)
Abbreviation Report := (nat * Rule * exn)%type.

Record LoopState : Type := mkLoopState {
  heap : Heap;
  used_columns : gset string;
  reported : list Report
}.

(** [f'{pk}_FROM_{so}'] *)
Definition base_name_of (pk so : string) : string :=
  pk +:+ "_FROM_" +:+ so.

(** [f'{base_name}_{c}'] *)
Definition suffixed (base_name : string) (c : N) : string :=
  base_name +:+ "_" +:+ pretty c.

(** The loop [while new_col in used_columns], run for at most [fuel]
    iterations; [None] when the fuel is used up before the loop exits. *)
Fixpoint while_taken (fuel : nat) (used_columns : gset string)
    (base_name new_col : string) (c : N) : option string :=
  if decide (new_col ∈ used_columns) then
    match fuel with
    | O => None
    | S fuel => while_taken fuel used_columns base_name (suffixed base_name c) (c + 1)%N
    end
  else Some new_col.

(** Lines 292-297: the name of the new column.  The loop body never runs
    more often than there are used names ([new_column_name_total]), so
    that much fuel always reaches the exit. *)
Definition new_column_name (used_columns : gset string) (pk so : string)
  : option string :=
  let base_name := base_name_of pk so in
  while_taken (size used_columns) used_columns base_name base_name 2%N.

(** The body of the [try]: what is assigned to the new column. *)
Definition lookup_values (result secondary : DataFrame) (pk sk so : string)
  : res (list cell) :=
  indexed ← set_index secondary sk;
  source ← getitem indexed.2 so;
  let map_series := mkSeries indexed.1 source in
  keys ← getitem result pk;
  series_map keys map_series.

(** One iteration of [for idx, (pk, sk, so) in enumerate(rules, start=1)]. *)
Definition rule_step (result_df secondary_df : loc) (idx : nat) (rule : Rule)
    (st : LoopState) : option LoopState :=
  let '(pk, sk, so) := rule in
  new_col ← new_column_name (used_columns st) pk so;
  let used := {[new_col]} ∪ used_columns st in
  let h := heap st in
  Some
    match lookup_values (obj h result_df) (obj h secondary_df) pk sk so with
    | Ok values =>
        mkLoopState (store h result_df (setitem (obj h result_df) new_col values))
                    used (reported st)
    | Raise e =>
        mkLoopState h used (reported st ++ [(idx, rule, e)])
    end.

Fixpoint run_rules (result_df secondary_df : loc) (idx : nat)
    (rules : list Rule) (st : LoopState) : option LoopState :=
  match rules with
  | [] => Some st
  | rule :: rest =>
      st' ← rule_step result_df secondary_df idx rule st;
      run_rules result_df secondary_df (S idx) rest st'
  end.

(** [if run_lookup:] up to the end of the loop.  The result is the
    location bound to [result_df] and the state the loop ends in. *)
Definition run_lookup (h : Heap) (primary_df secondary_df : loc)
    (rules : list Rule) : option (loc * LoopState) :=
  let '(h, result_df) := alloc h (obj h primary_df) in
  let used_columns := list_to_set (columns (obj h result_df)) in
  st ← run_rules result_df secondary_df 1 rules (mkLoopState h used_columns []);
  Some (result_df, st).

(** The frame bound to [result_df] at the end. *)
Definition result_of (out : loc * LoopState) : DataFrame :=
  obj (heap out.2) out.1.

End Lookup.

Import Lookup.

(** ** The table loader: the [for fname in selected_files] loop *)

Module Loader.

(** [df.empty]: some axis has length zero. *)
Definition empty (df : DataFrame) : bool :=
  match columns df, rows df with
  | [], _ => true
  | _, [] => true
  | _, _ => false
  end.

(** The positions of a list of labels, [KeyError] if one is unknown. *)
Fixpoint get_locs (labels cols : list string) : res (list nat) :=
  match labels with
  | [] => Ok []
  | label :: rest =>
      match get_loc label cols with
      | Some i => locs ← get_locs rest cols; Ok (i :: locs)
      | None => Raise (KeyError label)
      end
  end.

(** [df[labels]] with a list of labels: the named columns, in the order
    of the list. *)
Definition getitem_list (df : DataFrame) (labels : list string) : res DataFrame :=
  locs ← get_locs labels (columns df);
  Ok (mkDataFrame labels
        (map (fun r => map (fun i => default None (r !! i)) locs) (rows df))).

(** What the container of a file ends up showing. *)
Inductive SetupView : Type :=
  | ErrorLoadingPreview (e : exn)
  | AppearsEmpty
  | SelectAtLeastOne
  | PreviewShown (all_cols : list string) (shown : DataFrame).

(** Lines 197-222.  [multiselect] is the widget: the user's choice among
    the options it is given.  [Raise] is an exception that nothing
    catches ([df_preview[keep_cols]] is outside the [try]). *)
Definition table_setup (file : option string)
    (multiselect : list string → list string) : res SetupView :=
  match parse_text_file file (Some 50%Z) with
  | Raise e => Ok (ErrorLoadingPreview e)
  | Ok df_preview =>
      if empty df_preview then Ok AppearsEmpty
      else
        let all_cols := columns df_preview in
        let keep_cols := multiselect all_cols in
        match keep_cols with
        | [] => Ok SelectAtLeastOne
        | _ :: _ =>
            shown ← getitem_list df_preview keep_cols;
            Ok (PreviewShown all_cols shown)
        end
  end.

(** Lines 226-227: the frame that the download button prepares and passes
    to [export_df]: the full parse, then the chosen columns.  [Raise] is an
    exception of these two lines, which the [except] reports as a download
    error.  [export_df] itself (line 228, the CSV and Excel writers) is not
    modelled, nor is what it may raise. *)
Definition download_frame (file : option string) (keep_cols : list string)
  : res DataFrame :=
  df_full ← parse_text_file file None;
  getitem_list df_full keep_cols.

End Loader.

Import Loader.

Definition empty_frame : DataFrame := mkDataFrame [] [].

(** A heap holding a primary frame at location 0 and a secondary frame at
    location 1. *)
Definition two_frames (primary secondary : DataFrame) : Heap :=
  mkHeap 2 (<[0 := primary]> (<[1 := secondary]> (fun _ => empty_frame))).

Definition ids_primary : DataFrame :=
  mkDataFrame ["ID"] [[Some "1"]; [Some "2"]; [Some "3"]].

Definition ids_secondary : DataFrame :=
  mkDataFrame ["ID"; "NAME"] [[Some "2"; Some "x"]; [Some "3"; Some "y"]].

(** Lines 254-259 and 286-305: both tables are loaded in full, then the
    lookup runs on a heap that holds them.  [Raise] is what the script
    reports as an error loading the full tables before it stops. *)
Definition load_and_lookup (primary_file secondary_file : option string)
    (rules : list Rule) : res (option (loc * LoopState)) :=
  primary_df ← parse_text_file primary_file None;
  secondary_df ← parse_text_file secondary_file None;
  Ok (run_lookup (two_frames primary_df secondary_df) 0 1 rules).

(** * Vocabulary of the statements

    Notions read off the code above, in which the properties below are
    phrased, and the concrete inputs of the examples. *)

(** The line as the loop body sees it after [strip]. *)
Definition norm_line (line : string) : string :=
  strip (strip_chars (is_char LF) line).

(** The lines of a file that produce a row, already stripped. *)
Definition nonblank_lines (content : string) : list string :=
  filter (fun l => is_empty l = false) (map norm_line (file_lines content)).

(** The raw fields of a stripped line. *)
Definition line_fields (line : string) : list string :=
  split PIPE (fix_quotes line).

(** The row appended for a stripped line once the width is [n]. *)
Definition row_at_width (n : nat) (line : string) : list string :=
  map clean_field (fit_width (Some n) (line_fields line)).2.

(** The width invariant of the loop: with no width locked no row has been
    produced, and every produced row has the locked width. *)
Definition width_inv (rows : list (list string)) (col_count : option nat) : Prop :=
  match col_count with
  | None => rows = []
  | Some n => Forall (fun r => length r = n) rows
  end.

(** [n] copies of a character. *)
Fixpoint run (a : ascii) (n : nat) : string :=
  match n with
  | O => EmptyString
  | S n => String a (run a n)
  end.

Definition first_char (s : string) : option ascii :=
  match s with
  | EmptyString => None
  | String c _ => Some c
  end.

Fixpoint last_char (s : string) : option ascii :=
  match s with
  | EmptyString => None
  | String c r =>
      match last_char r with
      | None => Some c
      | Some l => Some l
      end
  end.

(** Only the first [n] data rows of a frame. *)
Definition head_rows (n : nat) (df : DataFrame) : DataFrame :=
  mkDataFrame (columns df) (take n (rows df)).

Definition abc_content : string :=
  "A|B|C" +:+ NL +:+ "1|2|3" +:+ NL +:+ "4|5".

Definition abc_frame : DataFrame :=
  mkDataFrame ["A"; "B"; "C"]
    [[Some "1"; Some "2"; Some "3"]; [Some "4"; Some "5"; Some EmptyString]].

(** A field wrapped in two layers of double quotes. *)
Definition quoted_twice : string := run DQ 2 +:+ "x" +:+ run DQ 2.

Fixpoint unsnoc (s : string) : option (string * ascii) :=
  match s with
  | EmptyString => None
  | String c r =>
      match unsnoc r with
      | None => Some (EmptyString, c)
      | Some (inner, l) => Some (String c inner, l)
      end
  end.

(** The cleaning as the specification words it: one layer of surrounding
    double quotes, one quote at the front together with one at the back. *)
Definition strip_one_layer (s : string) : string :=
  match s with
  | EmptyString => s
  | String c r =>
      if is_char DQ c then
        match unsnoc r with
        | Some (inner, l) => if is_char DQ l then inner else s
        | None => s
        end
      else s
  end.

Definition cleans_one_layer (field : string) : Prop :=
  clean_field field = strip_one_layer (strip field).

(** The names the [while] loop goes through: the base name, then the base
    name with the suffixes 2, 3, and so on. *)
Definition candidate (base_name : string) (k : nat) : string :=
  match k with
  | O => base_name
  | S j => suffixed base_name (N.of_nat j + 2)
  end.

(** [name] is the first candidate that is not in [used]. *)
Definition first_free (used : gset string) (base_name name : string) : Prop :=
  ∃ k, name = candidate base_name k
       ∧ (name ∉ used)
       ∧ ∀ i, i < k → candidate base_name i ∈ used.

(** [result] is [base] with columns appended on the right: the labels and
    cells of [base] are a prefix of every row, in the same row order. *)
Definition extends (base result : DataFrame) : Prop :=
  ∃ new_cols cells,
    columns result = columns base ++ new_cols
    ∧ rows result = zip_with app (rows base) cells
    ∧ length cells = length (rows base)
    ∧ Forall (fun e => length e = length new_cols) cells.

(** The frame bound to [result_df] in a loop state. *)
Definition result_frame (result_df : loc) (st : LoopState) : DataFrame :=
  obj (heap st) result_df.

Definition secondary_frame (secondary_df : loc) (st : LoopState) : DataFrame :=
  obj (heap st) secondary_df.

(** Every column of the result is registered in [used_columns]. *)
Definition cols_used (result_df : loc) (st : LoopState) : Prop :=
  ∀ c, c ∈ columns (result_frame result_df st) → c ∈ used_columns st.

(** The values [new_col] takes over the loop, rule after rule. *)
Fixpoint new_column_names (used : gset string) (rules : list Rule)
  : option (list string) :=
  match rules with
  | [] => Some []
  | (pk, _, so) :: rest =>
      name ← new_column_name used pk so;
      names ← new_column_names ({[name]} ∪ used) rest;
      Some (name :: names)
  end.

(** All three labels of a rule name a column of their frame. *)
Definition columns_resolve (result secondary : DataFrame) (rule : Rule) : Prop :=
  let '(pk, sk, so) := rule in
  pk ∈ columns result ∧ sk ∈ columns secondary ∧ so ∈ columns secondary.

(** The loop state when the loop is entered: [result_df] is a fresh copy
    of the primary frame. *)
Definition init_state (h : Heap) (primary_df : loc) : LoopState :=
  let '(h1, result_df) := alloc h (obj h primary_df) in
  mkLoopState h1 (list_to_set (columns (obj h1 result_df))) [].

(** Frames for a secondary table with a repeated key. *)
Definition dup_primary : DataFrame := mkDataFrame ["ID"] [[Some "2"]].

Definition dup_secondary : DataFrame :=
  mkDataFrame ["ID"; "NAME"] [[Some "2"; Some "x"]; [Some "2"; Some "y"]].



(** Frames for a rule whose key label is also its source label. *)
Definition one_primary : DataFrame := mkDataFrame ["ID"] [[Some "1"]].

Definition one_secondary : DataFrame :=
  mkDataFrame ["ID"; "NAME"] [[Some "2"; Some "x"]].

(** Row [i] of [df] has the missing marker in the column labelled [name]. *)
Definition absent_cell_at (df : DataFrame) (name : string) (i : nat) : Prop :=
  ∃ j row, columns df !! j = Some name ∧ rows df !! i = Some row
           ∧ row !! j = Some None.

(** [c in s] *)
Fixpoint mem_char (c : ascii) (s : string) : bool :=
  match s with
  | EmptyString => false
  | String c' r => is_char c c' || mem_char c r
  end.

(** A line feed, if there is one, is the last character. *)
Fixpoint lf_last (s : string) : bool :=
  match s with
  | EmptyString => true
  | String c r => if is_char LF c then is_empty r else lf_last r
  end.

(** A text value without separator and without line break. *)
Definition plain_text (s : string) : Prop :=
  mem_char PIPE s = false ∧ mem_char LF s = false ∧ mem_char CR s = false.

(** The row cap does not make the parser fail by itself: there is none,
    or it is not negative. *)
Definition cap_allows (nrows : option Z) : Prop :=
  match nrows with
  | None => True
  | Some k => (0 ≤ k)%Z
  end.

(** A text with Unix line ends rewritten with Windows line ends. *)
Fixpoint to_crlf (s : string) : string :=
  match s with
  | EmptyString => EmptyString
  | String c r =>
      if is_char LF c then String CR (String LF (to_crlf r))
      else String c (to_crlf r)
  end.

(** A text with Unix line ends rewritten with lone carriage returns. *)
Fixpoint to_cr (s : string) : string :=
  match s with
  | EmptyString => EmptyString
  | String c r =>
      if is_char LF c then String CR (to_cr r) else String c (to_cr r)
  end.

(** A cell that holds a text value with the property [P]. *)
Definition text_cell (P : string → Prop) (c : cell) : Prop :=
  ∃ s, c = Some s ∧ P s.

(** A file with a line cut short, a line too long and a stray quote. *)
Definition ragged_content : string :=
  "K |V" +:+ String CR NL +:+ NL
  +:+ "a" +:+ String DQ "|1|extra" +:+ NL +:+ "  " +:+ NL +:+ "b".

(** The file of [abc_content] with blank lines and blanks around lines. *)
Definition abc_spaced_content : string :=
  NL +:+ "  A|B|C " +:+ NL +:+ "   " +:+ NL +:+ "1|2|3" +:+ NL +:+ NL
  +:+ " 4|5" +:+ NL.

(** Lines 271-282: the three labels of a rule are picked in select boxes
    that offer the columns of the primary and of the secondary table. *)
Definition picked_from (primary secondary : DataFrame) (rule : Rule) : Prop :=
  let '(pk, sk, so) := rule in
  pk ∈ columns primary ∧ sk ∈ columns secondary ∧ so ∈ columns secondary.

(** The exception a picked rule ends with, read off the secondary table
    alone: none when the key label differs from the source label and the
    key column has no repeated value. *)
Definition rule_fails_with (secondary : DataFrame) (rule : Rule) : option exn :=
  let '(pk, sk, so) := rule in
  if decide (sk = so) then Some (KeyError so)
  else match getitem secondary sk with
       | Ok keys => if decide (NoDup keys) then None else Some InvalidIndexError
       | Raise e => Some e
       end.

Fixpoint expected_reports (secondary : DataFrame) (idx : nat) (rules : list Rule)
  : list Report :=
  match rules with
  | [] => []
  | rule :: rest =>
      match rule_fails_with secondary rule with
      | Some e => (idx, rule, e) :: expected_reports secondary (S idx) rest
      | None => expected_reports secondary (S idx) rest
      end
  end.

(** * The model on small inputs *)

Example parse_abc :
  parse_text_file (Some abc_content) None = Ok abc_frame.
Proof. vm_compute. reflexivity. Qed.

(** A stray quote is dropped before the split, CRLF ends a line, blank
    lines give no row, and a long line is cut. *)
Example parse_repairs :
  parse_text_file
    (Some ("K |V" +:+ String CR NL +:+ NL
           +:+ "a" +:+ String DQ "|1|extra" +:+ NL +:+ "  " +:+ NL +:+ "b"))
    None
  = Ok (mkDataFrame ["K"; "V"] [[Some "a"; Some "1"]; [Some "b"; Some EmptyString]]).
Proof. vm_compute. reflexivity. Qed.

Example lookup_ids :
  result_of <$> run_lookup (two_frames ids_primary ids_secondary) 0 1 [("ID", "ID", "NAME")]
  = Some (mkDataFrame ["ID"; "ID_FROM_NAME"]
            [[Some "1"; None]; [Some "2"; Some "x"]; [Some "3"; Some "y"]]).
Proof. vm_compute. reflexivity. Qed.

Example lookup_same_rule_twice :
  (fun out => columns (result_of out))
    <$> run_lookup (two_frames ids_primary ids_secondary) 0 1
          [("ID", "ID", "NAME"); ("ID", "ID", "NAME")]
  = Some ["ID"; "ID_FROM_NAME"; "ID_FROM_NAME_2"].
Proof. vm_compute. reflexivity. Qed.

(** * Properties of the parser *)

Section ParserFacts.

Lemma fit_width_locked n parts :
  (fit_width (Some n) parts).1 = Some n ∧ length (fit_width (Some n) parts).2 = n.
Proof.
  unfold fit_width.
  destruct (Nat.ltb_spec (length parts) n) as [Hlt|Hge]; simpl.
  - split; [done|]. rewrite length_app, length_replicate. lia.
  - destruct (Nat.ltb_spec n (length parts)) as [Hgt|Hle]; simpl.
    + split; [done|]. rewrite length_take. lia.
    + split; [done|]. lia.
Qed.

Lemma fit_width_first parts :
  fit_width None parts = (Some (length parts), parts).
Proof. reflexivity. Qed.

Lemma read_rows_cons nrows line rest rows col_count :
  read_rows nrows (line :: rest) rows col_count =
    if cap_reached nrows rows then rows
    else if is_empty (norm_line line) then read_rows nrows rest rows col_count
    else
      let fitted := fit_width col_count (line_fields (norm_line line)) in
      read_rows nrows rest (rows ++ [map clean_field fitted.2]) fitted.1.
Proof.
  simpl. fold (norm_line line).
  destruct (cap_reached nrows rows); [done|].
  destruct (is_empty (norm_line line)); [done|].
  fold (line_fields (norm_line line)).
  by destruct (fit_width col_count (line_fields (norm_line line))).
Qed.

(** The loop only ever appends to [rows]. *)
Lemma read_rows_extends nrows lines rows col_count :
  rows `prefix_of` read_rows nrows lines rows col_count.
Proof.
  revert rows col_count.
  induction lines as [|line rest IH]; intros rows col_count; [done|].
  rewrite read_rows_cons.
  destruct (cap_reached nrows rows); [done|].
  destruct (is_empty (norm_line line)); [apply IH|].
  simpl. etrans; [|apply IH]. by apply prefix_app_r.
Qed.

Lemma read_rows_width nrows lines rows col_count :
  width_inv rows col_count →
  ∃ n, Forall (fun r => length r = n) (read_rows nrows lines rows col_count).
Proof.
  revert rows col_count.
  induction lines as [|line rest IH]; intros rows col_count Hinv.
  - destruct col_count as [n|]; simpl in *; [by exists n|].
    subst. by exists 0.
  - rewrite read_rows_cons.
    assert (∃ n, Forall (fun r => length r = n) rows) as Hrows.
    { destruct col_count as [n|]; simpl in *; [by exists n|]. subst. by exists 0. }
    destruct (cap_reached nrows rows); [done|].
    destruct (is_empty (norm_line line)); [by apply IH|].
    cbv zeta. apply IH.
    destruct col_count as [n|]; simpl in Hinv.
    + destruct (fit_width_locked n (line_fields (norm_line line))) as [-> Hlen].
      simpl. apply Forall_app. split; [done|].
      constructor; [|done]. by rewrite length_map.
    + subst. rewrite fit_width_first. simpl.
      constructor; [|done]. by rewrite length_map.
Qed.

(** Without a cap the loop appends one row per non-blank line. *)
Lemma read_rows_locked lines rows n :
  read_rows None lines rows (Some n) =
    rows ++ map (row_at_width n)
              (filter (fun l => is_empty l = false) (map norm_line lines)).
Proof.
  revert rows.
  induction lines as [|line rest IH]; intros rows.
  - simpl. by rewrite app_nil_r.
  - rewrite read_rows_cons. simpl cap_reached. cbv iota.
    rewrite fmap_cons, filter_cons.
    destruct (is_empty (norm_line line)) eqn:Hblank.
    + rewrite decide_False by done. apply IH.
    + rewrite decide_True by done. cbv zeta.
      destruct (fit_width_locked n (line_fields (norm_line line))) as [-> _].
      rewrite IH, fmap_cons. by rewrite <- app_assoc.
Qed.

Lemma read_rows_uncapped lines :
  read_rows None lines [] None =
    match filter (fun l => is_empty l = false) (map norm_line lines) with
    | [] => []
    | first :: rest =>
        map clean_field (line_fields first)
        :: map (row_at_width (length (line_fields first))) rest
    end.
Proof.
  induction lines as [|line rest IH]; [done|].
  rewrite read_rows_cons. simpl cap_reached. cbv iota.
  rewrite fmap_cons, filter_cons.
  destruct (is_empty (norm_line line)) eqn:Hblank.
  - rewrite decide_False by done. apply IH.
  - rewrite decide_True by done. rewrite fit_width_first. simpl.
    by rewrite read_rows_locked.
Qed.

(** A cap of zero is falsy and never stops the loop. *)
Lemma read_rows_cap_zero lines rows col_count :
  read_rows (Some 0%Z) lines rows col_count = read_rows None lines rows col_count.
Proof.
  revert rows col_count.
  induction lines as [|line rest IH]; intros rows col_count; [done|].
  rewrite !read_rows_cons. simpl cap_reached.
  destruct (is_empty (norm_line line)); simpl; apply IH.
Qed.

Lemma cap_reached_spec k rows :
  (1 ≤ k)%Z →
  cap_reached (Some k) rows = bool_decide (Z.to_nat k ≤ length rows).
Proof.
  intros Hk. unfold cap_reached.
  destruct (Z.eqb_spec k 0) as [->|_]; [lia|]. simpl.
  destruct (Z.leb_spec k (Z.of_nat (length rows))).
  - rewrite bool_decide_eq_true_2; [done|lia].
  - rewrite bool_decide_eq_false_2; [done|lia].
Qed.

(** With a cap [k ≥ 1] the loop yields the first [k] rows of the uncapped
    run: the header row is one of them. *)
Lemma read_rows_capped k lines rows col_count :
  (1 ≤ k)%Z →
  length rows ≤ Z.to_nat k →
  read_rows (Some k) lines rows col_count =
    take (Z.to_nat k) (read_rows None lines rows col_count).
Proof.
  intros Hk. revert rows col_count.
  induction lines as [|line rest IH]; intros rows col_count Hlen.
  - simpl. by rewrite take_ge.
  - rewrite !read_rows_cons. rewrite cap_reached_spec by done.
    simpl cap_reached. cbv iota.
    case_bool_decide as Hcap.
    + assert (length rows = Z.to_nat k) as Heq by lia.
      set (out := if is_empty (norm_line line) then _ else _).
      assert (rows `prefix_of` out) as [more ->].
      { unfold out. destruct (is_empty (norm_line line)).
        - apply read_rows_extends.
        - simpl. etrans; [|apply read_rows_extends]. by apply prefix_app_r. }
      by rewrite take_app_length'.
    + destruct (is_empty (norm_line line)); [apply IH; lia|].
      simpl. apply IH. rewrite length_app. simpl. lia.
Qed.

End ParserFacts.

(** ** Stripping one character at both ends *)

Section StripFacts.

Lemma append_String c s t : String c s +:+ t = String c (s +:+ t).
Proof. reflexivity. Qed.

Lemma last_char_None s : last_char s = None → s = EmptyString.
Proof.
  destruct s as [|c r]; [done|]. simpl. by destruct (last_char r).
Qed.

Lemma is_char_true a c : is_char a c = true ↔ c = a.
Proof. unfold is_char. apply bool_decide_eq_true. Qed.

Lemma is_char_false a c : is_char a c = false ↔ c ≠ a.
Proof. unfold is_char. apply bool_decide_eq_false. Qed.

Lemma lstrip_run a s :
  ∃ n, s = run a n +:+ lstrip (is_char a) s
       ∧ first_char (lstrip (is_char a) s) ≠ Some a.
Proof.
  induction s as [|c r [n [Hr Hfirst]]]; [by exists 0|].
  simpl. destruct (is_char a c) eqn:Hc.
  - apply is_char_true in Hc as ->. exists (S n). split; [|done].
    simpl. by rewrite append_String, <- Hr.
  - apply is_char_false in Hc. exists 0. split; [done|].
    simpl. congruence.
Qed.

Lemma rstrip_run a s :
  ∃ n, s = rstrip (is_char a) s +:+ run a n
       ∧ last_char (rstrip (is_char a) s) ≠ Some a.
Proof.
  induction s as [|c r [n [Hr Hlast]]]; [by exists 0|].
  simpl. destruct (is_empty (rstrip (is_char a) r) && is_char a c) eqn:Hc.
  - apply andb_true_iff in Hc as [Hr' Hc]. apply is_char_true in Hc as ->.
    destruct (rstrip (is_char a) r); [|done].
    exists (S n). split; [|done]. by rewrite Hr.
  - exists n. split; [by rewrite append_String, <- Hr|].
    simpl. destruct (last_char (rstrip (is_char a) r)) as [l|] eqn:Hl; [done|].
    apply last_char_None in Hl. rewrite Hl in Hc. simpl in Hc.
    apply is_char_false in Hc. congruence.
Qed.

Lemma rstrip_first p s c :
  first_char (rstrip p s) = Some c → first_char s = Some c.
Proof.
  destruct s as [|c' r]; [done|]. simpl.
  by destruct (is_empty (rstrip p r) && p c').
Qed.

(** [s.strip(a)] removes the whole run of [a] at each end. *)
Lemma strip_chars_run a s :
  ∃ n m, s = run a n +:+ strip_chars (is_char a) s +:+ run a m
         ∧ first_char (strip_chars (is_char a) s) ≠ Some a
         ∧ last_char (strip_chars (is_char a) s) ≠ Some a.
Proof.
  unfold strip_chars.
  destruct (lstrip_run a s) as [n [Hs Hfirst]].
  destruct (rstrip_run a (lstrip (is_char a) s)) as [m [Hl Hlast]].
  exists n, m. split; [by rewrite <- Hl|]. split; [|done].
  intros Hc. by apply rstrip_first in Hc.
Qed.

End StripFacts.

(** ** What the parser returns *)

Section ParserResults.

Lemma read_rows_blank nrows lines rows col_count :
  filter (fun l => is_empty l = false) (map norm_line lines) = [] →
  read_rows nrows lines rows col_count = rows.
Proof.
  revert rows col_count.
  induction lines as [|line rest IH]; intros rows col_count Hblank; [done|].
  rewrite read_rows_cons. rewrite fmap_cons, filter_cons in Hblank.
  destruct (cap_reached nrows rows); [done|].
  destruct (is_empty (norm_line line)).
  - rewrite decide_False in Hblank by done. by apply IH.
  - by rewrite decide_True in Hblank by done.
Qed.

(** A file with no non-blank line makes [df.iloc[0]] fail. *)
Lemma parse_blank content nrows :
  nonblank_lines content = [] →
  parse_text_file (Some content) nrows = Raise IndexError.
Proof.
  unfold nonblank_lines, parse_text_file. intros Hblank.
  by rewrite read_rows_blank.
Qed.

(** The table of an uncapped parse, line by line. *)
Lemma parse_uncapped content first rest :
  nonblank_lines content = first :: rest →
  parse_text_file (Some content) None =
    Ok (mkDataFrame
          (map clean_field (line_fields first))
          (map (fun l => map Some (row_at_width (length (line_fields first)) l)) rest)).
Proof.
  unfold nonblank_lines, parse_text_file. intros Hlines.
  rewrite read_rows_uncapped, Hlines. simpl.
  by rewrite <- list_fmap_compose.
Qed.

Lemma clean_field_empty : clean_field EmptyString = EmptyString.
Proof. reflexivity. Qed.

Lemma row_at_width_short n line :
  length (line_fields line) < n →
  row_at_width n line =
    map clean_field (line_fields line)
    ++ replicate (n - length (line_fields line)) EmptyString.
Proof.
  intros Hlt. unfold row_at_width, fit_width.
  destruct (Nat.ltb_spec (length (line_fields line)) n); [|lia].
  simpl. by rewrite fmap_app, fmap_replicate, clean_field_empty.
Qed.

Lemma row_at_width_long n line :
  n < length (line_fields line) →
  row_at_width n line = map clean_field (take n (line_fields line)).
Proof.
  intros Hgt. unfold row_at_width, fit_width.
  destruct (Nat.ltb_spec (length (line_fields line)) n); [lia|].
  by destruct (Nat.ltb_spec n (length (line_fields line))); [|lia].
Qed.

Lemma row_at_width_exact n line :
  length (line_fields line) = n →
  row_at_width n line = map clean_field (line_fields line).
Proof.
  intros Heq. unfold row_at_width, fit_width.
  destruct (Nat.ltb_spec (length (line_fields line)) n); [lia|].
  by destruct (Nat.ltb_spec n (length (line_fields line))); [lia|].
Qed.

Lemma build_frame_take k rows :
  1 ≤ k →
  build_frame (take k rows) = head_rows (k - 1) <$> build_frame rows.
Proof.
  intros Hk. destruct k as [|k]; [lia|].
  destruct rows as [|header data]; [done|].
  simpl. unfold head_rows. simpl.
  by rewrite Nat.sub_0_r, fmap_take.
Qed.

End ParserResults.

(** * The parser claims *)

Section ParserClaims.

(** C1: a readable file with no usable line does not give an empty table:
    the header extraction raises [IndexError], with or without a row cap. *)
Theorem parse_empty_file_raises :
  parse_text_file (Some EmptyString) None = Raise IndexError
  ∧ parse_text_file (Some EmptyString) (Some 50%Z) = Raise IndexError
  ∧ parse_text_file (Some (NL +:+ "  " +:+ NL)) None = Raise IndexError.
Proof. repeat split; apply parse_blank; reflexivity. Qed.

(** C3 as stated fails: a field in two layers of quotes loses both. *)
Lemma one_layer_counterexample :
  parse_text_file (Some quoted_twice) None = Ok (mkDataFrame ["x"] [])
  ∧ strip_one_layer (strip quoted_twice) = run DQ 1 +:+ "x" +:+ run DQ 1
  ∧ ¬ cleans_one_layer quoted_twice.
Proof.
  split; [|split].
  - vm_compute. reflexivity.
  - vm_compute. reflexivity.
  - unfold cleans_one_layer. vm_compute. discriminate.
Qed.

(** C3, amended: every cell of the parsed table is [clean_field] of its
    field, for every field alike, and [clean_field] is the field with the
    whitespace at both ends removed and then all the double quotes at both
    ends removed, however many there are. *)
Theorem cleaning_strips_all_quotes :
  (∀ content first rest,
     nonblank_lines content = first :: rest →
     parse_text_file (Some content) None =
       Ok (mkDataFrame
             (map clean_field (line_fields first))
             (map (fun l =>
                     map (fun p => Some (clean_field p))
                         (fit_width (Some (length (line_fields first)))
                                    (line_fields l)).2) rest)))
  ∧ (∀ field, ∃ n m,
       strip field = run DQ n +:+ clean_field field +:+ run DQ m
       ∧ first_char (clean_field field) ≠ Some DQ
       ∧ last_char (clean_field field) ≠ Some DQ).
Proof.
  split.
  - intros content first rest Hlines.
    rewrite (parse_uncapped content first rest Hlines).
    do 2 f_equal. apply list_fmap_ext. intros _ l _.
    unfold row_at_width. by rewrite <- list_fmap_compose.
  - intros field. apply strip_chars_run.
Qed.

Lemma cleaning_strips_all_quotes_witness :
  parse_text_file (Some quoted_twice) None =
    Ok (mkDataFrame (map clean_field (line_fields quoted_twice)) []).
Proof.
  apply (proj1 cleaning_strips_all_quotes quoted_twice quoted_twice []).
  vm_compute. reflexivity.
Defined.

(** C4: every table the parser returns is rectangular: each data row has
    as many cells as the header. *)
Theorem parser_rectangular file nrows df :
  parse_text_file file nrows = Ok df → rectangular df.
Proof.
  destruct file as [content|]; [|done]. unfold parse_text_file.
  destruct (read_rows_width nrows (file_lines content) [] None) as [n Hn]; [done|].
  destruct (read_rows nrows (file_lines content) [] None) as [|header data];
    [done|].
  simpl. intros [= <-]. unfold rectangular. simpl.
  apply Forall_cons in Hn as [Hheader Hdata].
  apply Forall_fmap. eapply Forall_impl; [exact Hdata|].
  intros r Hr. simpl. rewrite length_map. congruence.
Qed.

Lemma parser_rectangular_witness : rectangular abc_frame.
Proof.
  apply (parser_rectangular (Some abc_content) None).
  vm_compute. reflexivity.
Defined.

(** C9: after the line that fixes the width, a line with fewer fields
    gives a row padded on the right with empty strings, a line with more
    fields gives a row cut on the right to the width; the lines [A|B|C],
    [1|2|3], [4|5] parse to columns A, B, C and rows 1, 2, 3 and 4, 5, ''. *)
Theorem width_normalization :
  (∀ content first rest,
     nonblank_lines content = first :: rest →
     ∃ df,
       parse_text_file (Some content) None = Ok df
       ∧ columns df = map clean_field (line_fields first)
       ∧ length (rows df) = length rest
       ∧ ∀ i line row,
           rest !! i = Some line → rows df !! i = Some row →
           let n := length (line_fields first) in
           let parts := line_fields line in
           (length parts < n →
              row = map (fun p => Some (clean_field p)) parts
                    ++ replicate (n - length parts) (Some EmptyString))
           ∧ (n < length parts →
              row = map (fun p => Some (clean_field p)) (take n parts))
           ∧ (length parts = n →
              row = map (fun p => Some (clean_field p)) parts))
  ∧ parse_text_file (Some abc_content) None = Ok abc_frame.
Proof.
  split; [|vm_compute; reflexivity].
  intros content first rest Hlines. eexists. split; [by apply parse_uncapped|].
  simpl. split; [done|]. split; [by rewrite length_map|].
  intros i line row Hline Hrow.
  rewrite list_lookup_fmap, Hline in Hrow. simpl in Hrow.
  injection Hrow as <-. repeat split; intros Hlen.
  - rewrite row_at_width_short by done.
    by rewrite fmap_app, fmap_replicate, <- list_fmap_compose.
  - rewrite row_at_width_long by done. by rewrite <- list_fmap_compose.
  - rewrite row_at_width_exact by done. by rewrite <- list_fmap_compose.
Qed.

Lemma width_normalization_witness :
  ∃ df, parse_text_file (Some abc_content) None = Ok df
        ∧ columns df = map clean_field (line_fields "A|B|C")
        ∧ length (rows df) = 2.
Proof.
  destruct (proj1 width_normalization abc_content "A|B|C" ["1|2|3"; "4|5"])
    as [df [Hdf [Hcols [Hlen _]]]].
  - vm_compute. reflexivity.
  - exists df. repeat split; assumption.
Defined.

(** C10: with a row cap [k ≥ 1] the parser returns the first [k - 1] data
    rows of the uncapped table, so at most [k - 1] of them, the header row
    being counted by the cap; a cap of 0 is the same as no cap. *)
Theorem row_cap_counts_header file k :
  (1 ≤ k)%Z →
  parse_text_file file (Some k) =
    head_rows (Z.to_nat k - 1) <$> parse_text_file file None
  ∧ (∀ df, parse_text_file file (Some k) = Ok df →
           (Z.of_nat (length (rows df)) ≤ k - 1)%Z)
  ∧ parse_text_file file (Some 0%Z) = parse_text_file file None.
Proof.
  intros Hk.
  assert (parse_text_file file (Some k) =
            head_rows (Z.to_nat k - 1) <$> parse_text_file file None) as Hcap.
  { destruct file as [content|]; [|done]. unfold parse_text_file.
    rewrite read_rows_capped by (simpl; lia).
    apply build_frame_take. lia. }
  split; [done|]. split.
  - intros df. rewrite Hcap.
    destruct (parse_text_file file None) as [full|e]; [|done].
    intros [= <-]. unfold head_rows. simpl. rewrite length_take. lia.
  - destruct file as [content|]; [|done]. unfold parse_text_file.
    by rewrite read_rows_cap_zero.
Qed.

Lemma row_cap_counts_header_witness :
  parse_text_file (Some abc_content) (Some 2%Z) =
    head_rows 1 <$> parse_text_file (Some abc_content) None.
Proof.
  apply (proj1 (row_cap_counts_header (Some abc_content) 2%Z ltac:(lia))).
Defined.

End ParserClaims.

(** * Naming the new column *)

Section Naming.

Example pretty_decimal :
  pretty (2%N) = "2" ∧ pretty (10%N) = "10" ∧ pretty (307%N) = "307".
Proof. vm_compute. done. Qed.

Lemma append_empty_r s : s +:+ EmptyString = s.
Proof. induction s as [|c s IH]; [done|]. by rewrite append_String, IH. Qed.

Lemma candidate_inj base_name : Inj (=) (=) (candidate base_name).
Proof.
  intros [|i] [|j] Heq; simpl in Heq; unfold suffixed in Heq.
  - done.
  - rewrite <- (append_empty_r base_name) in Heq at 1.
    by apply (inj (String.app base_name)) in Heq.
  - symmetry in Heq. rewrite <- (append_empty_r base_name) in Heq at 1.
    by apply (inj (String.app base_name)) in Heq.
  - apply (inj (String.app base_name)) in Heq.
    apply (inj (String.app "_")) in Heq.
    apply (inj pretty) in Heq. f_equal. lia.
Qed.

Lemma while_taken_from fuel used base_name k :
  match while_taken fuel used base_name (candidate base_name k) (N.of_nat k + 2) with
  | None => ∀ j, k ≤ j ≤ k + fuel → candidate base_name j ∈ used
  | Some name =>
      ∃ j, k ≤ j ≤ k + fuel ∧ name = candidate base_name j ∧ (name ∉ used)
           ∧ ∀ i, k ≤ i < j → candidate base_name i ∈ used
  end.
Proof.
  revert k. induction fuel as [|fuel IH]; intros k; simpl.
  - destruct (decide (candidate base_name k ∈ used)) as [Hin|Hout].
    + intros j Hj. by replace j with k by lia.
    + exists k. repeat split; [lia..|done|]. intros i Hi. lia.
  - destruct (decide (candidate base_name k ∈ used)) as [Hin|Hout].
    + specialize (IH (S k)). simpl in IH.
      replace (N.of_nat k + 2 + 1)%N with (N.pos (Pos.of_succ_nat k) + 2)%N by lia.
      destruct (while_taken fuel used base_name _ _) as [name|].
      * destruct IH as [j [Hj [Hname [Hfree Hbelow]]]].
        exists j. repeat split; [lia..|done|done|].
        intros i Hi. destruct (decide (i = k)) as [->|]; [done|].
        apply Hbelow. lia.
      * intros j Hj. destruct (decide (j = k)) as [->|]; [done|].
        apply IH. lia.
    + exists k. repeat split; [lia..|done|]. intros i Hi. lia.
Qed.

(** The used names cannot hold more candidates than there are used names. *)
Lemma candidates_run_out (used : gset string) base_name :
  ¬ (∀ j, j ≤ size used → candidate base_name j ∈ used).
Proof.
  intros Hall.
  set (l := candidate base_name <$> seq 0 (S (size used))).
  assert (NoDup l) as Hnodup.
  { pose proof (candidate_inj base_name) as Hinj.
    apply (NoDup_fmap_2 _). apply NoDup_seq. }
  assert (list_to_set l ⊆ used) as Hsub.
  { intros name Hname. apply elem_of_list_to_set in Hname.
    apply list_elem_of_fmap in Hname as [j [-> Hj]].
    apply elem_of_seq in Hj. apply Hall. lia. }
  apply subseteq_size in Hsub.
  rewrite size_list_to_set in Hsub by done.
  unfold l in Hsub. rewrite length_fmap, length_seq in Hsub. lia.
Qed.

(** The loop exits within [size used_columns] iterations, on the first
    free candidate. *)
Lemma new_column_name_total used pk so :
  ∃ name, new_column_name used pk so = Some name
          ∧ first_free used (base_name_of pk so) name.
Proof.
  unfold new_column_name.
  pose proof (while_taken_from (size used) used (base_name_of pk so) 0) as Hloop.
  simpl in Hloop.
  destruct (while_taken (size used) used (base_name_of pk so) _ _) as [name|].
  - destruct Hloop as [j [_ [Hname [Hfree Hbelow]]]].
    exists name. split; [done|]. exists j. repeat split; [done..|].
    intros i Hi. apply Hbelow. lia.
  - destruct (candidates_run_out used (base_name_of pk so)).
    intros j Hj. apply Hloop. lia.
Qed.

Lemma first_free_unique used base_name n1 n2 :
  first_free used base_name n1 → first_free used base_name n2 → n1 = n2.
Proof.
  intros [k1 [-> [Hfree1 Hbelow1]]] [k2 [-> [Hfree2 Hbelow2]]].
  destruct (Nat.lt_trichotomy k1 k2) as [Hlt|[->|Hgt]]; [|done|].
  - by apply Hbelow2 in Hlt.
  - by apply Hbelow1 in Hgt.
Qed.

End Naming.

(** * Facts about the frame operations *)

Section FrameFacts.

Lemma get_loc_None label cols : get_loc label cols = None ↔ label ∉ cols.
Proof.
  unfold get_loc. rewrite fmap_None, list_find_None, Forall_forall.
  split; [intros H Hin; by apply (H label)|].
  intros Hout c Hc ->. done.
Qed.

Lemma get_loc_Some label cols i :
  get_loc label cols = Some i → cols !! i = Some label.
Proof.
  unfold get_loc. intros Hfind.
  apply fmap_Some in Hfind as [[j c] [Hfind ->]].
  apply list_find_Some in Hfind as [Hj [-> _]]. done.
Qed.

Lemma get_loc_elem label cols : label ∈ cols → is_Some (get_loc label cols).
Proof.
  intros Hin. destruct (get_loc label cols) eqn:Hloc; [done|].
  by apply get_loc_None in Hloc.
Qed.

Lemma getitem_Ok df label :
  label ∈ columns df →
  ∃ i, get_loc label (columns df) = Some i ∧ getitem df label = Ok (column_at i df).
Proof.
  intros Hin. destruct (get_loc_elem label (columns df) Hin) as [i Hi].
  exists i. split; [done|]. unfold getitem. by rewrite Hi.
Qed.

Lemma getitem_missing df label :
  label ∉ columns df → getitem df label = Raise (KeyError label).
Proof.
  intros Hout. apply get_loc_None in Hout. unfold getitem. by rewrite Hout.
Qed.

Lemma getitem_length df label values :
  getitem df label = Ok values → length values = length (rows df).
Proof.
  unfold getitem. destruct (get_loc label (columns df)); [|done].
  intros [= <-]. unfold column_at. by rewrite length_map.
Qed.

Lemma set_index_missing df label :
  label ∉ columns df → set_index df label = Raise (KeyError label).
Proof.
  intros Hout. apply get_loc_None in Hout. unfold set_index. by rewrite Hout.
Qed.

(** The index that [set_index] builds is the column read by [getitem]. *)
Lemma set_index_keys df label keys :
  getitem df label = Ok keys →
  ∃ rest, set_index df label = Ok (keys, rest).
Proof.
  unfold getitem, set_index.
  destruct (get_loc label (columns df)) as [i|]; [|done].
  intros [= <-]. eauto.
Qed.

Lemma series_map_length values mapper out :
  series_map values mapper = Ok out → length out = length values.
Proof.
  unfold series_map, get_indexer.
  destruct (decide (NoDup (s_index mapper))); [|done].
  intros [= <-]. unfold take_nd. by rewrite !length_map.
Qed.

Lemma series_map_duplicates values mapper :
  ¬ NoDup (s_index mapper) → series_map values mapper = Raise InvalidIndexError.
Proof.
  intros Hdup. unfold series_map, get_indexer.
  by destruct (decide (NoDup (s_index mapper))).
Qed.

(** A value that is not an index label is mapped to the missing marker. *)
Lemma series_map_absent values mapper out i v :
  series_map values mapper = Ok out →
  values !! i = Some v → v ∉ s_index mapper → out !! i = Some None.
Proof.
  unfold series_map, get_indexer.
  destruct (decide (NoDup (s_index mapper))); [|done].
  intros [= <-] Hv Hout. unfold take_nd.
  rewrite !list_lookup_fmap, Hv. simpl.
  destruct (list_find (fun k => k = v) (s_index mapper)) as [[j k]|] eqn:Hfind;
    [|done].
  apply list_find_Some in Hfind as [Hj [-> _]].
  by apply list_elem_of_lookup_2 in Hj.
Qed.

Lemma setitem_fresh df label values :
  label ∉ columns df →
  setitem df label values =
    mkDataFrame (columns df ++ [label])
                (zip_with (fun r v => r ++ [v]) (rows df) values).
Proof.
  intros Hout. apply get_loc_None in Hout. unfold setitem. by rewrite Hout.
Qed.

Lemma zip_with_snoc {A} (rows cells : list (list A)) (values : list A) :
  length cells = length rows →
  zip_with (fun r v => r ++ [v]) (zip_with app rows cells) values =
    zip_with app rows (zip_with (fun e v => e ++ [v]) cells values).
Proof.
  revert cells values.
  induction rows as [|r rows IH]; intros [|e cells] [|v values] Hlen;
    simplify_eq/=; try done.
  f_equal; [by rewrite <- app_assoc|]. by apply IH.
Qed.

Lemma extends_refl df : extends df df.
Proof.
  exists [], (replicate (length (rows df)) []).
  rewrite app_nil_r, length_replicate. repeat split; [|by apply Forall_replicate].
  induction (rows df) as [|r rs IH]; [done|].
  simpl. by rewrite app_nil_r, <- IH.
Qed.

Lemma extends_setitem base df label values :
  extends base df → label ∉ columns df → length values = length (rows df) →
  extends base (setitem df label values).
Proof.
  intros (new_cols & cells & Hcols & Hrows & Hlen & Hwidth) Hfresh Hvalues.
  rewrite setitem_fresh by done.
  exists (new_cols ++ [label]), (zip_with (fun e v => e ++ [v]) cells values).
  assert (length values = length cells) as Hvc.
  { rewrite Hvalues, Hrows, length_zip_with. lia. }
  simpl. repeat split.
  - by rewrite Hcols, <- app_assoc.
  - rewrite Hrows. by apply zip_with_snoc.
  - rewrite length_zip_with. lia.
  - clear -Hwidth Hvc. revert values Hvc.
    induction Hwidth as [|e cells He _ IH]; intros [|v values] Hvc;
      simplify_eq/=; constructor.
    + rewrite !length_app, He. done.
    + by apply IH.
Qed.

Lemma extends_length base df : extends base df → length (rows df) = length (rows base).
Proof.
  intros (new_cols & cells & _ & -> & Hlen & _).
  rewrite length_zip_with. lia.
Qed.

Lemma extends_trans a b c : extends a b → extends b c → extends a c.
Proof.
  intros (n1 & c1 & Hcols1 & Hrows1 & Hlen1 & Hw1)
         (n2 & c2 & Hcols2 & Hrows2 & Hlen2 & Hw2).
  exists (n1 ++ n2), (zip_with app c1 c2).
  assert (length c2 = length c1) as Hc.
  { rewrite Hlen2, Hrows1, length_zip_with. lia. }
  repeat split.
  - by rewrite Hcols2, Hcols1, <- app_assoc.
  - rewrite Hrows2, Hrows1. clear -Hlen1 Hc.
    revert c1 c2 Hlen1 Hc.
    induction (rows a) as [|r rs IH]; intros [|e1 c1] [|e2 c2] Hlen1 Hc;
      simplify_eq/=; try done.
    f_equal; [by rewrite <- app_assoc|]. by apply IH.
  - rewrite length_zip_with. lia.
  - clear -Hw1 Hw2 Hc. revert c2 Hw2 Hc.
    induction Hw1 as [|e1 c1 He1 _ IH]; intros [|e2 c2] Hw2 Hc;
      simplify_eq/=; constructor.
    + apply Forall_cons in Hw2 as [He2 _]. rewrite !length_app. lia.
    + apply Forall_cons in Hw2 as [_ Hw2]. by apply IH.
Qed.

Lemma extends_rectangular base df :
  rectangular base → extends base df → rectangular df.
Proof.
  unfold rectangular.
  intros Hrect (new_cols & cells & -> & -> & Hlen & Hwidth).
  revert cells Hlen Hwidth.
  induction Hrect as [|r rs Hr _ IH]; intros [|e cells] Hlen Hwidth;
    simplify_eq/=; constructor.
  - apply Forall_cons in Hwidth as [He _]. rewrite !length_app. lia.
  - apply Forall_cons in Hwidth as [_ Hwidth]. by apply IH.
Qed.

(** A row of an extended frame starts with the row of the base frame. *)
Lemma extends_lookup base df i row :
  extends base df → rows base !! i = Some row →
  ∃ more, rows df !! i = Some (row ++ more).
Proof.
  intros (new_cols & cells & _ & -> & Hlen & _) Hrow.
  destruct (lookup_lt_is_Some_2 cells i) as [e He].
  { rewrite Hlen. by eapply lookup_lt_Some. }
  exists e. rewrite lookup_zip_with, Hrow, He. done.
Qed.

End FrameFacts.

(** * Facts about the lookup loop *)

Section LoopFacts.

Variables result_df secondary_df : loc.

Lemma lookup_values_length result secondary pk sk so values :
  lookup_values result secondary pk sk so = Ok values →
  length values = length (rows result).
Proof.
  unfold lookup_values.
  destruct (set_index secondary sk) as [[keys rest]|]; [|done]. simpl.
  destruct (getitem rest so) as [source|]; [|done]. simpl.
  destruct (getitem result pk) as [targets|] eqn:Htargets; [|done]. simpl.
  intros Hmap. apply series_map_length in Hmap.
  apply getitem_length in Htargets. congruence.
Qed.

Lemma getitem_Ok_elem df label values :
  getitem df label = Ok values → label ∈ columns df.
Proof.
  unfold getitem. destruct (get_loc label (columns df)) as [i|] eqn:Hloc; [|done].
  intros _. apply get_loc_Some in Hloc. by eapply list_elem_of_lookup_2.
Qed.

Lemma getitem_Raise df label e :
  getitem df label = Raise e → e = KeyError label.
Proof.
  unfold getitem. destruct (get_loc label (columns df)); [done|]. by intros [= <-].
Qed.

Lemma set_index_Ok df label keys rest :
  set_index df label = Ok (keys, rest) →
  label ∈ columns df ∧ getitem df label = Ok keys
  ∧ ∃ i, columns df !! i = Some label ∧ columns rest = delete i (columns df).
Proof.
  unfold set_index, getitem.
  destruct (get_loc label (columns df)) as [i|] eqn:Hloc; [|done].
  intros [= <- <-]. apply get_loc_Some in Hloc.
  split; [by eapply list_elem_of_lookup_2|]. split; [done|]. by exists i.
Qed.

Lemma elem_of_delete_other {A} (l : list A) i x y :
  x ∈ l → l !! i = Some y → x ≠ y → x ∈ delete i l.
Proof.
  intros Hin Hi Hne. rewrite delete_take_drop.
  rewrite <- (take_drop_middle l i y Hi) in Hin.
  rewrite elem_of_app, elem_of_cons in Hin. rewrite elem_of_app.
  destruct Hin as [Hl|[->|Hr]]; [by left|done|by right].
Qed.

Lemma set_index_Raise df label e :
  set_index df label = Raise e → e = KeyError label.
Proof.
  unfold set_index. destruct (get_loc label (columns df)); [done|]. by intros [= <-].
Qed.

(** A rule with a label that names no column raises [KeyError]. *)
Lemma lookup_values_unresolved result secondary pk sk so :
  ¬ columns_resolve result secondary (pk, sk, so) →
  ∃ label, lookup_values result secondary pk sk so = Raise (KeyError label).
Proof.
  intros Hmiss. unfold lookup_values.
  destruct (set_index secondary sk) as [[keys rest]|e] eqn:Hsk; simpl;
    [|apply set_index_Raise in Hsk as ->; by exists sk].
  destruct (getitem rest so) as [source|e] eqn:Hso; simpl;
    [|apply getitem_Raise in Hso as ->; by exists so].
  destruct (getitem result pk) as [targets|e] eqn:Hpk; simpl;
    [|apply getitem_Raise in Hpk as ->; by exists pk].
  destruct Hmiss. simpl.
  apply set_index_Ok in Hsk as (Hin & _ & i & _ & Hcols).
  apply getitem_Ok_elem in Hso, Hpk. rewrite Hcols in Hso.
  split; [done|]. split; [done|]. by eapply list_elem_of_delete_inv.
Qed.

(** A key column with a repeated value makes the rule fail, whatever the
    other labels are. *)
Lemma lookup_values_duplicates result secondary pk sk so keys :
  getitem secondary sk = Ok keys → ¬ NoDup keys →
  ∃ e, lookup_values result secondary pk sk so = Raise e
       ∧ (columns_resolve result secondary (pk, sk, so) → sk ≠ so →
          e = InvalidIndexError).
Proof.
  intros Hkeys Hdup. unfold lookup_values.
  destruct (set_index_keys _ _ _ Hkeys) as [rest Hrest]. rewrite Hrest. simpl.
  destruct (getitem rest so) as [source|e] eqn:Hso; simpl.
  - destruct (getitem result pk) as [targets|e] eqn:Hpk; simpl.
    + rewrite series_map_duplicates by done. eauto.
    + exists e. split; [done|]. intros (Hin & _) _.
      destruct (getitem_Ok _ _ Hin) as (i & _ & Hok). congruence.
  - exists e. split; [done|]. intros (_ & Hsk & Hin) Hne.
    apply set_index_Ok in Hrest as (_ & _ & i & Hi & Hcols).
    assert (so ∈ columns rest) as Hrest.
    { rewrite Hcols. by eapply elem_of_delete_other. }
    destruct (getitem_Ok _ _ Hrest) as (j & _ & Hok). congruence.
Qed.

(** One iteration: the name is the first free candidate and is registered
    at once; then either the column is assigned or the failure is
    reported and the heap is left as it was. *)
Lemma rule_step_spec idx pk sk so st :
  ∃ name st',
    rule_step result_df secondary_df idx (pk, sk, so) st = Some st'
    ∧ new_column_name (used_columns st) pk so = Some name
    ∧ first_free (used_columns st) (base_name_of pk so) name
    ∧ used_columns st' = {[name]} ∪ used_columns st
    ∧ match lookup_values (result_frame result_df st) (secondary_frame secondary_df st) pk sk so with
      | Ok values =>
          heap st' = store (heap st) result_df
                       (setitem (result_frame result_df st) name values)
          ∧ reported st' = reported st
      | Raise e =>
          heap st' = heap st
          ∧ reported st' = reported st ++ [(idx, (pk, sk, so), e)]
      end.
Proof.
  destruct (new_column_name_total (used_columns st) pk so) as (name & Hname & Hfree).
  exists name. unfold rule_step. rewrite Hname. simpl.
  eexists. split; [done|]. split; [done|]. split; [done|].
  unfold result_frame, secondary_frame.
  by destruct (lookup_values _ _ pk sk so).
Qed.

Lemma result_frame_store st df :
  obj (store (heap st) result_df df) result_df = df.
Proof. simpl. apply fn_lookup_insert. Qed.

(** What every iteration keeps: the result extends [base], its columns
    are registered, and no other object of the heap is touched. *)
Lemma rule_step_inv base idx rule st st' :
  rule_step result_df secondary_df idx rule st = Some st' →
  cols_used result_df st → extends base (result_frame result_df st) →
  cols_used result_df st' ∧ extends base (result_frame result_df st')
  ∧ extends (result_frame result_df st) (result_frame result_df st')
  ∧ next (heap st') = next (heap st)
  ∧ (∀ l, l ≠ result_df → obj (heap st') l = obj (heap st) l)
  ∧ used_columns st ⊆ used_columns st'
  ∧ (∀ c, c ∈ columns (result_frame result_df st') →
          c ∈ columns (result_frame result_df st) ∨ c ∉ used_columns st)
  ∧ length (columns (result_frame result_df st')) + length (reported st')
    = S (length (columns (result_frame result_df st)) + length (reported st)).
Proof.
  destruct rule as [[pk sk] so]. unfold cols_used. intros Hstep Hused Hext.
  destruct (rule_step_spec idx pk sk so st)
    as (name & st2 & Hstep' & _ & (k & _ & Hfree & _) & Hreg & Hcases).
  rewrite Hstep in Hstep'. injection Hstep' as <-.
  assert (name ∉ columns (result_frame result_df st)) as Hfresh.
  { intros Hin. by apply Hfree, Hused. }
  destruct (lookup_values _ _ pk sk so) as [values|e] eqn:Hvalues.
  - destruct Hcases as [Hheap Hrep].
    apply lookup_values_length in Hvalues.
    assert (result_frame result_df st' = setitem (result_frame result_df st) name values) as Hres.
    { unfold result_frame at 1. rewrite Hheap. apply result_frame_store. }
    rewrite Hres, Hheap, Hrep, Hreg. repeat split.
    + intros c. rewrite setitem_fresh by done. simpl.
      rewrite elem_of_app, list_elem_of_singleton. intros [Hc| ->].
      * apply elem_of_union_r. by apply Hused.
      * apply elem_of_union_l. by apply elem_of_singleton.
    + by apply extends_setitem.
    + apply extends_setitem; [apply extends_refl|done..].
    + intros l Hl. simpl. by apply fn_lookup_insert_ne.
    + apply union_subseteq_r.
    + intros c. rewrite setitem_fresh by done. simpl.
      rewrite elem_of_app, list_elem_of_singleton. intros [Hc| ->]; [by left|by right].
    + rewrite setitem_fresh by done. simpl. rewrite length_app. simpl. lia.
  - destruct Hcases as [Hheap Hrep].
    assert (result_frame result_df st' = result_frame result_df st) as Hres.
    { unfold result_frame. by rewrite Hheap. }
    rewrite Hres, Hheap, Hrep, Hreg. repeat split; try done.
    + intros c Hc. apply elem_of_union_r. by apply Hused.
    + apply extends_refl.
    + apply union_subseteq_r.
    + intros c Hc. by left.
    + rewrite length_app. simpl. lia.
Qed.

Lemma run_rules_cons idx rule rules st :
  run_rules result_df secondary_df idx (rule :: rules) st =
    st1 ← rule_step result_df secondary_df idx rule st;
    run_rules result_df secondary_df (S idx) rules st1.
Proof. reflexivity. Qed.

Lemma run_rules_app idx rules1 rules2 st :
  run_rules result_df secondary_df idx (rules1 ++ rules2) st =
    st1 ← run_rules result_df secondary_df idx rules1 st;
    run_rules result_df secondary_df (idx + length rules1) rules2 st1.
Proof.
  revert idx st. induction rules1 as [|rule rules1 IH]; intros idx st.
  - simpl. by rewrite Nat.add_0_r.
  - rewrite <- app_comm_cons, !run_rules_cons.
    destruct (rule_step result_df secondary_df idx rule st) as [st1|]; [|done].
    simpl. rewrite IH. by rewrite Nat.add_succ_r.
Qed.

(** The loop runs every rule to the end. *)
Lemma run_rules_total idx rules st :
  ∃ st', run_rules result_df secondary_df idx rules st = Some st'.
Proof.
  revert idx st. induction rules as [|[[pk sk] so] rules IH]; intros idx st.
  - by exists st.
  - destruct (rule_step_spec idx pk sk so st) as (name & st1 & Hstep & _).
    rewrite run_rules_cons, Hstep. simpl. apply IH.
Qed.

Lemma run_rules_inv base idx rules st st' :
  run_rules result_df secondary_df idx rules st = Some st' →
  cols_used result_df st → extends base (result_frame result_df st) →
  cols_used result_df st' ∧ extends base (result_frame result_df st')
  ∧ extends (result_frame result_df st) (result_frame result_df st')
  ∧ next (heap st') = next (heap st)
  ∧ (∀ l, l ≠ result_df → obj (heap st') l = obj (heap st) l)
  ∧ used_columns st ⊆ used_columns st'
  ∧ (∀ c, c ∈ columns (result_frame result_df st') →
          c ∈ columns (result_frame result_df st) ∨ c ∉ used_columns st)
  ∧ length (columns (result_frame result_df st')) + length (reported st')
    = length rules + (length (columns (result_frame result_df st)) + length (reported st)).
Proof.
  revert idx st. induction rules as [|rule rules IH]; intros idx st Hrun Hused Hext.
  - simpl in Hrun. injection Hrun as <-.
    repeat split; try done. { apply extends_refl. } intros c Hc. by left.
  - rewrite run_rules_cons in Hrun.
    destruct (rule_step result_df secondary_df idx rule st) as [st1|] eqn:Hstep;
      [|done]. simpl in Hrun.
    destruct (rule_step_inv base idx rule st st1 Hstep Hused Hext)
      as (Hused1 & Hext1 & Hgrow1 & Hnext1 & Hframe1 & Hsub1 & Hnew1 & Hcount1).
    destruct (IH (S idx) st1 Hrun Hused1 Hext1)
      as (Hused' & Hext' & Hgrow' & Hnext' & Hframe' & Hsub' & Hnew' & Hcount').
    repeat split; try done.
    + by eapply extends_trans.
    + congruence.
    + intros l Hl. rewrite Hframe' by done. by apply Hframe1.
    + by etrans.
    + intros c Hc. destruct (Hnew' c Hc) as [Hc1|Hc1]; [by apply Hnew1|].
      right. intros Hin. by apply Hc1, Hsub1.
    + simpl. lia.
Qed.

End LoopFacts.

(** * Facts about [run_lookup] *)

Section RunFacts.

Lemma run_lookup_unfold h primary_df secondary_df rules :
  run_lookup h primary_df secondary_df rules =
    st ← run_rules (next h) secondary_df 1 rules (init_state h primary_df);
    Some (next h, st).
Proof. reflexivity. Qed.

Lemma init_state_frame h primary_df :
  result_frame (next h) (init_state h primary_df) = obj h primary_df.
Proof. unfold result_frame, init_state. simpl. apply fn_lookup_insert. Qed.

Lemma init_state_used h primary_df :
  used_columns (init_state h primary_df) = list_to_set (columns (obj h primary_df)).
Proof. unfold init_state. simpl. by rewrite fn_lookup_insert. Qed.

Lemma init_state_cols_used h primary_df :
  cols_used (next h) (init_state h primary_df).
Proof.
  unfold cols_used. rewrite init_state_frame, init_state_used.
  intros c Hc. by apply elem_of_list_to_set.
Qed.

Lemma init_state_other h primary_df l :
  l ≠ next h → obj (heap (init_state h primary_df)) l = obj h l.
Proof. intros Hl. unfold init_state. simpl. by apply fn_lookup_insert_ne. Qed.

(** [run_lookup] always ends, and its end state keeps the loop invariant
    relative to the primary frame. *)
Lemma run_lookup_spec h primary_df secondary_df rules :
  ∃ st,
    run_lookup h primary_df secondary_df rules = Some (next h, st)
    ∧ run_rules (next h) secondary_df 1 rules (init_state h primary_df) = Some st
    ∧ cols_used (next h) st
    ∧ extends (obj h primary_df) (result_frame (next h) st)
    ∧ (∀ l, l ≠ next h → obj (heap st) l = obj h l)
    ∧ length (columns (result_frame (next h) st)) + length (reported st)
      = length rules + length (columns (obj h primary_df)).
Proof.
  destruct (run_rules_total (next h) secondary_df 1 rules (init_state h primary_df))
    as [st Hrun].
  exists st. rewrite run_lookup_unfold, Hrun. split; [done|]. split; [done|].
  destruct (run_rules_inv (next h) secondary_df (obj h primary_df) 1 rules _ _ Hrun)
    as (Hused & Hext & _ & _ & Hframe & _ & _ & Hcount).
  { apply init_state_cols_used. }
  { rewrite init_state_frame. apply extends_refl. }
  repeat split; try done.
  - intros l Hl. rewrite Hframe by done. by apply init_state_other.
  - rewrite Hcount, init_state_frame. unfold init_state. simpl. lia.
Qed.

Lemma new_column_names_total used rules :
  ∃ names, new_column_names used rules = Some names.
Proof.
  revert used. induction rules as [|[[pk sk] so] rules IH]; intros used.
  - by exists [].
  - destruct (new_column_name_total used pk so) as (name & Hname & _).
    destruct (IH ({[name]} ∪ used)) as [names Hnames].
    exists (name :: names). simpl. rewrite Hname. simpl. by rewrite Hnames.
Qed.

(** Every chosen name is the first candidate free of the names in use
    before the loop and of the names chosen by the earlier rules. *)
Lemma new_column_names_spec used rules names :
  new_column_names used rules = Some names →
  length names = length rules
  ∧ ∀ i pk sk so name,
      rules !! i = Some (pk, sk, so) → names !! i = Some name →
      first_free (list_to_set (take i names) ∪ used) (base_name_of pk so) name.
Proof.
  revert used names.
  induction rules as [|[[pk0 sk0] so0] rules IH]; intros used names Hnames.
  - simpl in Hnames. injection Hnames as <-. split; [done|]. intros i. by destruct i.
  - simpl in Hnames.
    destruct (new_column_name_total used pk0 so0) as (name0 & Hname0 & Hfree0).
    rewrite Hname0 in Hnames. simpl in Hnames.
    destruct (new_column_names ({[name0]} ∪ used) rules) as [rest|] eqn:Hrest;
      [|done].
    simpl in Hnames. injection Hnames as <-.
    destruct (IH _ _ Hrest) as [Hlen Hspec].
    split; [simpl; by rewrite Hlen|].
    intros [|i] pk sk so name Hrule Hname; simplify_eq/=.
    + by rewrite (left_id_L ∅ (∪)).
    + specialize (Hspec i pk sk so name Hrule Hname).
      assert (({[name0]} ∪ list_to_set (take i rest)) ∪ used
              = list_to_set (take i rest) ∪ ({[name0]} ∪ used)) as Heq
        by set_solver.
      by rewrite Heq.
Qed.

(** The loop registers exactly the chosen names, and the columns it adds
    are chosen names, in the order of the rules. *)
Lemma run_rules_names result_df secondary_df idx rules st st' :
  run_rules result_df secondary_df idx rules st = Some st' →
  cols_used result_df st →
  ∃ names added,
    new_column_names (used_columns st) rules = Some names
    ∧ used_columns st' = list_to_set names ∪ used_columns st
    ∧ columns (result_frame result_df st')
      = columns (result_frame result_df st) ++ added
    ∧ added `sublist_of` names.
Proof.
  revert idx st.
  induction rules as [|[[pk sk] so] rules IH]; intros idx st Hrun Hused.
  - simpl in Hrun. injection Hrun as <-. exists [], [].
    simpl. rewrite (left_id_L ∅ (∪)), app_nil_r. done.
  - rewrite run_rules_cons in Hrun.
    destruct (rule_step_spec result_df secondary_df idx pk sk so st)
      as (name & st1 & Hstep & Hname & (k & _ & Hfree & _) & Hreg & Hcases).
    rewrite Hstep in Hrun. simpl in Hrun.
    destruct (rule_step_inv result_df secondary_df (result_frame result_df st)
                idx _ st st1 Hstep Hused (extends_refl _)) as (Hused1 & _).
    destruct (IH _ _ Hrun Hused1) as (names & added & Hnames & Hreg' & Hcols & Hsub).
    assert (name ∉ columns (result_frame result_df st)) as Hfresh.
    { intros Hin. by apply Hfree, Hused. }
    exists (name :: names). simpl. rewrite Hname. simpl.
    rewrite <- Hreg, Hnames. simpl.
    destruct (lookup_values _ _ pk sk so) as [values|e].
    + destruct Hcases as [Hheap _]. exists (name :: added).
      split; [done|]. split; [rewrite Hreg', Hreg; set_solver|].
      split; [|by apply sublist_skip].
      rewrite Hcols. unfold result_frame at 1. rewrite Hheap, result_frame_store.
      rewrite setitem_fresh by done. simpl. by rewrite <- app_assoc.
    + destruct Hcases as [Hheap _]. exists added.
      split; [done|]. split; [rewrite Hreg', Hreg; set_solver|].
      split; [|by apply sublist_cons].
      rewrite Hcols. unfold result_frame. by rewrite Hheap.
Qed.

(** Two rules with the same [pk] and [so], neither name being in use. *)
Lemma same_pair_names used pk sk1 sk2 so :
  base_name_of pk so ∉ used →
  base_name_of pk so +:+ "_2" ∉ used →
  new_column_names used [(pk, sk1, so); (pk, sk2, so)]
  = Some [base_name_of pk so; base_name_of pk so +:+ "_2"].
Proof.
  intros Hbase Hsecond. set (base := base_name_of pk so) in *.
  destruct (new_column_names_total used [(pk, sk1, so); (pk, sk2, so)])
    as [names Hnames].
  rewrite Hnames. f_equal.
  destruct (new_column_names_spec _ _ _ Hnames) as [Hlen Hspec].
  destruct names as [|n1 [|n2 [|n3 names]]]; simplify_eq/=.
  pose proof (Hspec 0 pk sk1 so n1 eq_refl eq_refl) as Hfirst.
  pose proof (Hspec 1 pk sk2 so n2 eq_refl eq_refl) as Hnext.
  simpl in Hfirst, Hnext. fold base in Hfirst, Hnext.
  assert (n1 = base) as ->.
  { eapply first_free_unique; [exact Hfirst|].
    exists 0. split; [done|]. split; [set_solver|]. intros i Hi. lia. }
  assert (n2 = base +:+ "_2") as ->; [|done].
  eapply first_free_unique; [exact Hnext|].
  exists 1. split; [done|]. split.
  - assert (base +:+ "_2" ≠ base) as Hne.
    { intros Heq. by apply (candidate_inj base 1 0) in Heq. }
    set_solver.
  - intros i Hi. replace i with 0 by lia. simpl. set_solver.
Qed.

End RunFacts.

(** * A rule inside a run *)

Section RuleInRun.

(** The state in which a rule sequence leaves the loop, read back from
    what [run_lookup] returns. *)
Lemma run_lookup_inv h primary_df secondary_df rules st :
  run_lookup h primary_df secondary_df rules = Some (next h, st) →
  run_rules (next h) secondary_df 1 rules (init_state h primary_df) = Some st
  ∧ cols_used (next h) st
  ∧ extends (obj h primary_df) (result_frame (next h) st)
  ∧ (∀ l, l ≠ next h → obj (heap st) l = obj h l).
Proof.
  intros Hrun.
  destruct (run_lookup_spec h primary_df secondary_df rules)
    as (st' & Hrun' & Hrules & Hused & Hext & Hframe & _).
  rewrite Hrun in Hrun'. injection Hrun' as <-. done.
Qed.

(** Running [before], then one more rule, then [after]. *)
Lemma run_lookup_middle h primary_df secondary_df (before after : list Rule)
    rule st1 st2 :
  run_lookup h primary_df secondary_df before = Some (next h, st1) →
  rule_step (next h) secondary_df (S (length before)) rule st1 = Some st2 →
  ∃ st3,
    run_lookup h primary_df secondary_df (before ++ rule :: after)
      = Some (next h, st3)
    ∧ run_rules (next h) secondary_df (S (S (length before))) after st2 = Some st3.
Proof.
  intros Hbefore Hstep.
  apply run_lookup_inv in Hbefore as (Hrules & _).
  destruct (run_rules_total (next h) secondary_df (S (S (length before))) after st2)
    as [st3 Hafter].
  exists st3. split; [|done].
  assert (run_rules (next h) secondary_df 1 (before ++ rule :: after)
            (init_state h primary_df) = Some st3) as Hall.
  { rewrite run_rules_app, Hrules.
    change (run_rules (next h) secondary_df (S (length before))
              (rule :: after) st1 = Some st3).
    rewrite run_rules_cons, Hstep. exact Hafter. }
  by rewrite run_lookup_unfold, Hall.
Qed.

(** A rule whose lookup raises is isolated: the heap is left as it was,
    the failure is reported, the rules after it run, the result built so
    far is kept, and the name chosen for the rule labels no column. *)
Lemma raising_rule_isolated h primary_df secondary_df (before after : list Rule)
    pk sk so st1 e :
  run_lookup h primary_df secondary_df before = Some (next h, st1) →
  lookup_values (obj (heap st1) (next h)) (obj (heap st1) secondary_df) pk sk so
    = Raise e →
  ∃ st2 out name,
    rule_step (next h) secondary_df (S (length before)) (pk, sk, so) st1 = Some st2
    ∧ heap st2 = heap st1
    ∧ reported st2 = reported st1 ++ [(S (length before), (pk, sk, so), e)]
    ∧ new_column_name (used_columns st1) pk so = Some name
    ∧ run_lookup h primary_df secondary_df (before ++ (pk, sk, so) :: after)
      = Some out
    ∧ run_rules (next h) secondary_df (S (S (length before))) after st2 = Some out.2
    ∧ extends (obj (heap st1) (next h)) (result_of out)
    ∧ (name ∉ columns (result_of out))
    ∧ length (columns (result_of out)) + length (reported out.2)
      = length (before ++ (pk, sk, so) :: after) + length (columns (obj h primary_df)).
Proof.
  intros Hbefore Hraise.
  destruct (run_lookup_inv _ _ _ _ _ Hbefore) as (_ & Hused1 & _).
  destruct (rule_step_spec (next h) secondary_df (S (length before)) pk sk so st1)
    as (name & st2 & Hstep & Hname & (k & _ & Hfree & _) & Hreg & Hcases).
  unfold result_frame, secondary_frame in Hcases. rewrite Hraise in Hcases.
  destruct Hcases as [Hheap Hrep].
  destruct (run_lookup_middle _ _ _ _ after _ _ _ Hbefore Hstep)
    as (st3 & Hrun & Hafter).
  exists st2, (next h, st3), name. repeat split; try done.
  - assert (cols_used (next h) st2) as Hused2.
    { intros c. unfold result_frame. rewrite Hheap, Hreg. intros Hc.
      apply elem_of_union_r. by apply Hused1. }
    destruct (run_rules_inv (next h) secondary_df (result_frame (next h) st2)
                _ _ _ _ Hafter Hused2 (extends_refl _)) as (_ & Hext & _).
    unfold result_frame in Hext. by rewrite Hheap in Hext.
  - assert (cols_used (next h) st2) as Hused2.
    { intros c. unfold result_frame. rewrite Hheap, Hreg. intros Hc.
      apply elem_of_union_r. by apply Hused1. }
    destruct (run_rules_inv (next h) secondary_df (result_frame (next h) st2)
                _ _ _ _ Hafter Hused2 (extends_refl _))
      as (_ & _ & _ & _ & _ & _ & Hnew & _).
    unfold result_of. simpl. intros Hin.
    destruct (Hnew name Hin) as [Hold|Hout].
    + unfold result_frame in Hold. rewrite Hheap in Hold.
      by apply Hfree, Hused1.
    + apply Hout. rewrite Hreg. apply elem_of_union_l. by apply elem_of_singleton.
  - destruct (run_lookup_spec h primary_df secondary_df
                (before ++ (pk, sk, so) :: after))
      as (st' & Hrun' & _ & _ & _ & _ & Hcount).
    assert (Some (next h, st3) = Some (next h, st')) as Heq
      by (etrans; [symmetry; exact Hrun|exact Hrun']).
    injection Heq as <-. done.
Qed.

(** A rule whose labels resolve, with distinct key and source labels and
    a key column without repetition, gets its values from [series_map]. *)
Lemma lookup_values_Ok result secondary pk sk so keys :
  columns_resolve result secondary (pk, sk, so) → sk ≠ so →
  getitem secondary sk = Ok keys → NoDup keys →
  ∃ j source values,
    get_loc pk (columns result) = Some j
    ∧ series_map (column_at j result) (mkSeries keys source) = Ok values
    ∧ lookup_values result secondary pk sk so = Ok values.
Proof.
  intros (Hpk & Hsk & Hso) Hne Hkeys Hnodup. unfold lookup_values.
  destruct (set_index_keys _ _ _ Hkeys) as [rest Hrest]. rewrite Hrest. simpl.
  apply set_index_Ok in Hrest as (_ & _ & i & Hi & Hcols).
  assert (so ∈ columns rest) as Hin.
  { rewrite Hcols. by eapply elem_of_delete_other. }
  destruct (getitem_Ok _ _ Hin) as (i' & _ & ->). simpl.
  destruct (getitem_Ok _ _ Hpk) as (j & Hj & ->). simpl.
  exists j, (column_at i' rest).
  unfold series_map, get_indexer. simpl.
  rewrite decide_True by done. simpl. eauto.
Qed.

End RuleInRun.

(** * The lookup claims *)

Section LookupClaims.

(** C5: the result of the lookup has the rows of the primary frame, in
    the same number and order, each followed by the cells of the added
    columns, the primary columns come first and unchanged, and the frames
    bound to [primary_df] and [secondary_df] are the same after the run
    (the loop writes only to the copy).  This holds for every rule
    sequence, the empty one included. *)
Theorem merge_preserves_primary h primary_df secondary_df rules :
  primary_df < next h → secondary_df < next h →
  ∃ out,
    run_lookup h primary_df secondary_df rules = Some out
    ∧ length (rows (result_of out)) = length (rows (obj h primary_df))
    ∧ (∃ new_cols cells,
         columns (result_of out) = columns (obj h primary_df) ++ new_cols
         ∧ rows (result_of out) = zip_with app (rows (obj h primary_df)) cells
         ∧ length cells = length (rows (obj h primary_df)))
    ∧ obj (heap out.2) primary_df = obj h primary_df
    ∧ obj (heap out.2) secondary_df = obj h secondary_df.
Proof.
  intros Hp Hs.
  destruct (run_lookup_spec h primary_df secondary_df rules)
    as (st & Hrun & _ & _ & Hext & Hframe & _).
  exists (next h, st). split; [done|]. unfold result_of. simpl.
  split; [by apply extends_length|]. split.
  - destruct Hext as (new_cols & cells & Hcols & Hrows & Hlen & _).
    by exists new_cols, cells.
  - split; apply Hframe; lia.
Qed.

Lemma merge_preserves_primary_witness :
  ∃ out,
    run_lookup (two_frames ids_primary ids_secondary) 0 1 [("ID", "ID", "NAME")]
      = Some out
    ∧ length (rows (result_of out)) = 3.
Proof.
  destruct (merge_preserves_primary (two_frames ids_primary ids_secondary) 0 1
              [("ID", "ID", "NAME")]) as (out & Hrun & Hlen & _).
  - simpl. lia.
  - simpl. lia.
  - exists out. split; [exact Hrun|exact Hlen].
Defined.

(** C8: the name of a rule's new column is the first of the base name
    [pk_FROM_so], then the base name with the suffixes 2, 3, and so on,
    that is neither a primary column nor the name chosen by an earlier
    rule; each chosen name is registered in [used_columns] at once; the
    columns added to the result are chosen names in rule order.  Two rules
    with the same [pk] and [so], neither name being taken, get
    [X_FROM_Y] and [X_FROM_Y_2]. *)
Theorem collision_safe_naming :
  (∀ h primary_df secondary_df rules,
     ∃ out names,
       run_lookup h primary_df secondary_df rules = Some out
       ∧ new_column_names (list_to_set (columns (obj h primary_df))) rules
         = Some names
       ∧ length names = length rules
       ∧ (∀ i pk sk so name,
            rules !! i = Some (pk, sk, so) → names !! i = Some name →
            first_free (list_to_set (take i names)
                        ∪ list_to_set (columns (obj h primary_df)))
                       (base_name_of pk so) name)
       ∧ used_columns out.2
         = list_to_set names ∪ list_to_set (columns (obj h primary_df))
       ∧ ∃ added,
           columns (result_of out) = columns (obj h primary_df) ++ added
           ∧ added `sublist_of` names)
  ∧ (∀ used pk sk1 sk2 so,
       base_name_of pk so ∉ used →
       base_name_of pk so +:+ "_2" ∉ used →
       new_column_names used [(pk, sk1, so); (pk, sk2, so)]
       = Some [base_name_of pk so; base_name_of pk so +:+ "_2"]).
Proof.
  split; [|apply same_pair_names].
  intros h primary_df secondary_df rules.
  destruct (run_lookup_spec h primary_df secondary_df rules)
    as (st & Hrun & Hrules & _).
  destruct (run_rules_names _ _ _ _ _ _ Hrules (init_state_cols_used h primary_df))
    as (names & added & Hnames & Hreg & Hcols & Hsub).
  rewrite init_state_used in Hnames, Hreg. rewrite init_state_frame in Hcols.
  destruct (new_column_names_spec _ _ _ Hnames) as [Hlen Hspec].
  exists (next h, st), names. repeat split; try done.
  by exists added.
Qed.

Lemma collision_safe_naming_witness :
  new_column_names (list_to_set ["X"; "K"]) [("X", "K", "Y"); ("X", "K", "Y")]
  = Some ["X_FROM_Y"; "X_FROM_Y_2"].
Proof.
  apply (proj2 collision_safe_naming (list_to_set ["X"; "K"]) "X" "K" "K" "Y").
  - apply (bool_decide_unpack _). vm_compute. exact I.
  - apply (bool_decide_unpack _). vm_compute. exact I.
Defined.




(** C7: a rule that names a column absent from its frame fails alone:
    [KeyError] is reported for that rule, the heap and so the result built
    so far are left as they were, the rules after it run, the final result
    still extends the result built so far, the name chosen for the failed
    rule labels no column, and every rule has either added a column or
    been reported. *)
Theorem failing_rule_is_isolated h primary_df secondary_df
    (before after : list Rule) pk sk so st1 :
  secondary_df < next h →
  run_lookup h primary_df secondary_df before = Some (next h, st1) →
  ¬ columns_resolve (obj (heap st1) (next h)) (obj h secondary_df) (pk, sk, so) →
  ∃ st2 out name label,
    rule_step (next h) secondary_df (S (length before)) (pk, sk, so) st1 = Some st2
    ∧ heap st2 = heap st1
    ∧ reported st2
      = reported st1 ++ [(S (length before), (pk, sk, so), KeyError label)]
    ∧ new_column_name (used_columns st1) pk so = Some name
    ∧ run_lookup h primary_df secondary_df (before ++ (pk, sk, so) :: after)
      = Some out
    ∧ run_rules (next h) secondary_df (S (S (length before))) after st2 = Some out.2
    ∧ extends (obj (heap st1) (next h)) (result_of out)
    ∧ (name ∉ columns (result_of out))
    ∧ length (columns (result_of out)) + length (reported out.2)
      = length (before ++ (pk, sk, so) :: after)
        + length (columns (obj h primary_df)).
Proof.
  intros Hs Hbefore Hmiss.
  destruct (run_lookup_inv _ _ _ _ _ Hbefore) as (_ & _ & _ & Hframe).
  assert (obj (heap st1) secondary_df = obj h secondary_df) as Hsec
    by (apply Hframe; lia).
  destruct (lookup_values_unresolved _ _ _ _ _ Hmiss) as (label & Hraise).
  rewrite <- Hsec in Hraise.
  destruct (raising_rule_isolated h primary_df secondary_df before after
              pk sk so st1 _ Hbefore Hraise)
    as (st2 & out & name & Hstep & Hheap & Hrep & Hname & Hrun & Hafter
        & Hext & Hskip & Hcount).
  exists st2, out, name, label. repeat split; done.
Qed.

Lemma failing_rule_is_isolated_witness :
  ∃ out,
    run_lookup (two_frames ids_primary ids_secondary) 0 1
      [("ID", "GONE", "NAME"); ("ID", "ID", "NAME")] = Some out
    ∧ length (columns (result_of out)) + length (reported out.2) = 3.
Proof.
  destruct (failing_rule_is_isolated (two_frames ids_primary ids_secondary) 0 1
              [] [("ID", "ID", "NAME")] "ID" "GONE" "NAME"
              (init_state (two_frames ids_primary ids_secondary) 0))
    as (st2 & out & name & label & _ & _ & _ & _ & Hrun & _ & _ & _ & Hcount).
  - simpl. lia.
  - reflexivity.
  - apply (bool_decide_unpack _). vm_compute. exact I.
  - exists out. split; [exact Hrun|exact Hcount].
Defined.

(** C6 as stated fails: the labels of the rule resolve and the key 1 of
    the primary row is not a secondary key, yet the rule raises (the key
    label is also the source label, and [set_index] has taken the key
    column out of the columns): the result has no new column, so no
    absent cell, and the failure is reported. *)
Lemma missing_key_counterexample :
  columns_resolve one_primary one_secondary ("ID", "ID", "ID")
  ∧ getitem one_secondary "ID" = Ok [Some "2"]
  ∧ (Some "1" ∉ [Some "2"])
  ∧ result_of <$> run_lookup (two_frames one_primary one_secondary) 0 1
                    [("ID", "ID", "ID")]
    = Some one_primary
  ∧ (fun out => reported out.2)
      <$> run_lookup (two_frames one_primary one_secondary) 0 1 [("ID", "ID", "ID")]
    = Some [(1, ("ID", "ID", "ID"), KeyError "ID")]
  ∧ ¬ absent_cell_at one_primary "ID_FROM_ID" 0.
Proof.
  split; [apply (bool_decide_unpack _); vm_compute; exact I|].
  split; [reflexivity|].
  split; [apply (bool_decide_unpack _); vm_compute; exact I|].
  split; [vm_compute; reflexivity|].
  split; [vm_compute; reflexivity|].
  intros (j & row & Hj & _). destruct j as [|[|j]]; simpl in Hj; discriminate.
Qed.

(** C6, amended: for frames with pairwise distinct column labels, a rule
    whose labels resolve, whose key label differs from its source label
    and whose secondary key column has no repeated value succeeds without
    any report and appends its column; in every row whose key cell is not
    a value of the secondary key column, the cell of that column is the
    missing marker, and it still is in the final result. *)
Theorem missing_key_gives_absent_cell h primary_df secondary_df
    (before after : list Rule) pk sk so st1 keys :
  secondary_df < next h →
  rectangular (obj h primary_df) →
  NoDup (columns (obj h primary_df)) →
  NoDup (columns (obj h secondary_df)) →
  run_lookup h primary_df secondary_df before = Some (next h, st1) →
  columns_resolve (obj (heap st1) (next h)) (obj h secondary_df) (pk, sk, so) →
  sk ≠ so →
  getitem (obj h secondary_df) sk = Ok keys →
  NoDup keys →
  ∃ st2 out name j,
    rule_step (next h) secondary_df (S (length before)) (pk, sk, so) st1 = Some st2
    ∧ reported st2 = reported st1
    ∧ new_column_name (used_columns st1) pk so = Some name
    ∧ get_loc pk (columns (obj (heap st1) (next h))) = Some j
    ∧ run_lookup h primary_df secondary_df (before ++ (pk, sk, so) :: after)
      = Some out
    ∧ columns (result_of out) !! length (columns (obj (heap st1) (next h)))
      = Some name
    ∧ ∀ i row,
        rows (obj (heap st1) (next h)) !! i = Some row →
        default None (row !! j) ∉ keys →
        ∃ row', rows (result_of out) !! i = Some row'
                ∧ row' !! length (columns (obj (heap st1) (next h))) = Some None.
Proof.
  intros Hs Hrect _ _ Hbefore Hres Hne Hkeys Hnodup.
  destruct (run_lookup_inv _ _ _ _ _ Hbefore) as (_ & Hused1 & Hext1 & Hframe).
  assert (obj (heap st1) secondary_df = obj h secondary_df) as Hsec
    by (apply Hframe; lia).
  set (R1 := obj (heap st1) (next h)) in *.
  destruct (lookup_values_Ok R1 _ pk sk so keys Hres Hne Hkeys Hnodup)
    as (j & source & values & Hj & Hmap & Hvalues).
  rewrite <- Hsec in Hvalues.
  destruct (rule_step_spec (next h) secondary_df (S (length before)) pk sk so st1)
    as (name & st2 & Hstep & Hname & (k & _ & Hfree & _) & Hreg & Hcases).
  unfold result_frame, secondary_frame in Hcases. fold R1 in Hcases.
  rewrite Hvalues in Hcases. destruct Hcases as [Hheap Hrep].
  destruct (run_lookup_middle _ _ _ _ after _ _ _ Hbefore Hstep)
    as (st3 & Hrun & Hafter).
  assert (name ∉ columns R1) as Hfresh.
  { intros Hin. by apply Hfree, Hused1. }
  assert (result_frame (next h) st2 =
            mkDataFrame (columns R1 ++ [name])
              (zip_with (fun r v => r ++ [v]) (rows R1) values)) as HR2.
  { unfold result_frame. rewrite Hheap, result_frame_store.
    by apply setitem_fresh. }
  destruct (rule_step_inv (next h) secondary_df R1 _ _ _ _ Hstep Hused1
              (extends_refl _)) as (Hused2 & _).
  destruct (run_rules_inv (next h) secondary_df (result_frame (next h) st2)
              _ _ _ _ Hafter Hused2 (extends_refl _)) as (_ & Hext3 & _).
  exists st2, (next h, st3), name, j. repeat split; try done.
  - destruct Hext3 as (new_cols & _ & Hcols & _).
    unfold result_of. simpl. unfold result_frame in Hcols. rewrite Hcols.
    fold (result_frame (next h) st2). rewrite HR2. simpl.
    rewrite <- app_assoc. simpl. by apply list_lookup_middle.
  - intros i row Hrow Hkey.
    assert (values !! i = Some None) as Hvalue.
    { eapply series_map_absent; [exact Hmap| |exact Hkey].
      unfold column_at. by rewrite list_lookup_fmap, Hrow. }
    assert (rows (result_frame (next h) st2) !! i = Some (row ++ [None])) as Hrow2.
    { rewrite HR2. simpl. rewrite lookup_zip_with, Hrow. simpl.
      by rewrite Hvalue. }
    destruct (extends_lookup _ _ _ _ Hext3 Hrow2) as [more Hrow3].
    exists ((row ++ [None]) ++ more). split; [exact Hrow3|].
    assert (length row = length (columns R1)) as <-.
    { pose proof (extends_rectangular _ _ Hrect Hext1) as HrectR.
      unfold rectangular in HrectR. rewrite Forall_lookup in HrectR.
      by apply (HrectR i). }
    rewrite <- app_assoc. simpl. by apply list_lookup_middle.
Qed.

Lemma missing_key_gives_absent_cell_witness :
  ∃ out row,
    run_lookup (two_frames ids_primary ids_secondary) 0 1 [("ID", "ID", "NAME")]
      = Some out
    ∧ rows (result_of out) !! 0 = Some row
    ∧ row !! 1 = Some None.
Proof.
  destruct (missing_key_gives_absent_cell (two_frames ids_primary ids_secondary)
              0 1 [] [] "ID" "ID" "NAME"
              (init_state (two_frames ids_primary ids_secondary) 0)
              [Some "2"; Some "3"])
    as (st2 & out & name & j & _ & _ & _ & Hj & Hrun & _ & Hrows).
  - simpl. lia.
  - apply (bool_decide_unpack _). vm_compute. exact I.
  - apply (bool_decide_unpack _). vm_compute. exact I.
  - apply (bool_decide_unpack _). vm_compute. exact I.
  - reflexivity.
  - apply (bool_decide_unpack _). vm_compute. exact I.
  - apply (bool_decide_unpack _). vm_compute. exact I.
  - reflexivity.
  - apply (bool_decide_unpack _). vm_compute. exact I.
  - injection Hj as <-.
    destruct (Hrows 0 [Some "1"] eq_refl) as (row & Hrow & Hcell).
    + apply (bool_decide_unpack _). vm_compute. exact I.
    + exists out, row. split; [exact Hrun|]. split; [exact Hrow|exact Hcell].
Defined.

End LookupClaims.

(** * Characters that never reach a cell *)

Section CellCharacters.

Lemma mem_char_cons c c' r :
  mem_char c (String c' r) = false ↔ c' ≠ c ∧ mem_char c r = false.
Proof.
  simpl. rewrite orb_false_iff, is_char_false. done.
Qed.

Lemma lstrip_free c p s : mem_char c s = false → mem_char c (lstrip p s) = false.
Proof.
  induction s as [|c' r IH]; [done|]. intros Hs. simpl.
  destruct (p c'); [|done]. apply IH. by apply mem_char_cons in Hs as [_ Hr].
Qed.

Lemma rstrip_free c p s : mem_char c s = false → mem_char c (rstrip p s) = false.
Proof.
  induction s as [|c' r IH]; [done|]. intros Hs.
  apply mem_char_cons in Hs as [Hc Hr]. simpl.
  destruct (is_empty (rstrip p r) && p c'); [done|].
  apply mem_char_cons. split; [done|]. by apply IH.
Qed.

Lemma strip_chars_free c p s :
  mem_char c s = false → mem_char c (strip_chars p s) = false.
Proof. intros Hs. unfold strip_chars. by apply rstrip_free, lstrip_free. Qed.

Lemma remove_char_free c a s :
  mem_char c s = false → mem_char c (remove_char a s) = false.
Proof.
  induction s as [|c' r IH]; [done|]. intros Hs.
  apply mem_char_cons in Hs as [Hc Hr]. simpl.
  destruct (is_char a c'); [by apply IH|].
  apply mem_char_cons. split; [done|]. by apply IH.
Qed.


Lemma fix_quotes_free c line :
  mem_char c line = false → mem_char c (fix_quotes line) = false.
Proof.
  intros Hline. unfold fix_quotes.
  destruct (Nat.odd (count DQ line)); [by apply remove_char_free|done].
Qed.

Lemma split_cons sep c r :
  split sep (String c r) =
    if is_char sep c then EmptyString :: split sep r
    else match split sep r with
         | h :: t => String c h :: t
         | [] => [String c EmptyString]
         end.
Proof. reflexivity. Qed.

(** No piece of a split holds the separator. *)
Lemma split_no_sep sep s : Forall (fun p => mem_char sep p = false) (split sep s).
Proof.
  induction s as [|c r IH]; [by repeat constructor|].
  rewrite split_cons. destruct (is_char sep c) eqn:Hc; [by constructor|].
  apply is_char_false in Hc.
  destruct (split sep r) as [|h t].
  - repeat constructor. by apply mem_char_cons.
  - apply Forall_cons in IH as [Hh Ht]. constructor; [|done].
    by apply mem_char_cons.
Qed.

Lemma split_free c sep s :
  mem_char c s = false → Forall (fun p => mem_char c p = false) (split sep s).
Proof.
  induction s as [|c' r IH]; [by repeat constructor|]. intros Hs.
  apply mem_char_cons in Hs as [Hc Hr]. specialize (IH Hr).
  rewrite split_cons. destruct (is_char sep c'); [by constructor|].
  destruct (split sep r) as [|h t].
  - repeat constructor. by apply mem_char_cons.
  - apply Forall_cons in IH as [Hh Ht]. constructor; [|done].
    by apply mem_char_cons.
Qed.

Lemma keepends_cons c r :
  keepends (String c r) =
    if is_char LF c then String LF EmptyString :: keepends r
    else match keepends r with
         | h :: t => String c h :: t
         | [] => [String c EmptyString]
         end.
Proof. reflexivity. Qed.

Lemma keepends_free c s :
  mem_char c s = false → Forall (fun l => mem_char c l = false) (keepends s).
Proof.
  induction s as [|c' r IH]; [by constructor|]. intros Hs.
  apply mem_char_cons in Hs as [Hc Hr]. specialize (IH Hr).
  rewrite keepends_cons. destruct (is_char LF c') eqn:Hlf.
  - apply is_char_true in Hlf as ->. constructor; [|done].
    by apply mem_char_cons.
  - destruct (keepends r) as [|h t].
    + repeat constructor. by apply mem_char_cons.
    + apply Forall_cons in IH as [Hh Ht]. constructor; [|done].
      by apply mem_char_cons.
Qed.

(** In a line of the file the line feed can only be the last character. *)
Lemma keepends_lf_last s : Forall (fun l => lf_last l = true) (keepends s).
Proof.
  induction s as [|c r IH]; [by constructor|].
  rewrite keepends_cons. destruct (is_char LF c) eqn:Hlf.
  - constructor; [done|done].
  - destruct (keepends r) as [|h t].
    + repeat constructor. simpl. by rewrite Hlf.
    + apply Forall_cons in IH as [Hh Ht]. constructor; [|done].
      simpl. by rewrite Hlf.
Qed.

Lemma lf_last_lstrip p s : lf_last s = true → lf_last (lstrip p s) = true.
Proof.
  induction s as [|c r IH]; [done|]. intros Hs. simpl.
  destruct (p c); [|done]. apply IH. simpl in Hs.
  destruct (is_char LF c); [by destruct r|done].
Qed.

Lemma lf_last_rstrip p s :
  p LF = true → lf_last s = true → mem_char LF (rstrip p s) = false.
Proof.
  intros Hp. induction s as [|c r IH]; [done|]. simpl. intros Hs.
  destruct (is_char LF c) eqn:Hlf.
  - apply is_char_true in Hlf as ->. destruct r; [|done]. simpl. by rewrite Hp.
  - destruct (is_empty (rstrip p r) && p c); [done|].
    apply mem_char_cons. split; [by apply is_char_false in Hlf|]. by apply IH.
Qed.

(** After the translation of line ends no carriage return is left. *)
Lemma universal_newlines_no_cr s : mem_char CR (universal_newlines s) = false.
Proof.
  cut (mem_char CR (universal_newlines s) = false
       ∧ ∀ c, mem_char CR (universal_newlines (String c s)) = false);
    [by intros [H _]|].
  induction s as [|a r [IH1 IH2]].
  - split; [done|]. intros c. simpl.
    destruct (is_char CR c) eqn:Hc; [reflexivity|]. simpl. by rewrite Hc.
  - split; [apply IH2|]. intros c.
    change (universal_newlines (String c (String a r))) with
      (if is_char CR c then
         if is_char LF a then String LF (universal_newlines r)
         else String LF (universal_newlines (String a r))
       else String c (universal_newlines (String a r))).
    destruct (is_char CR c) eqn:Hc.
    + destruct (is_char LF a); apply mem_char_cons; (split; [done|]);
        [exact IH1|apply IH2].
    + apply mem_char_cons. split; [by apply is_char_false in Hc|apply IH2].
Qed.

(** Text without carriage return is left as it is by the translation. *)
Lemma universal_newlines_id s :
  mem_char CR s = false → universal_newlines s = s.
Proof.
  induction s as [|c r IH]; [done|]. intros Hs.
  apply mem_char_cons in Hs as [Hc Hr]. simpl.
  destruct (is_char CR c) eqn:Hcr; [by apply is_char_true in Hcr|].
  by rewrite IH.
Qed.

Lemma norm_line_free c line :
  mem_char c line = false → mem_char c (norm_line line) = false.
Proof.
  intros Hline. unfold norm_line, strip. by do 2 apply strip_chars_free.
Qed.

Lemma norm_line_no_lf line : lf_last line = true → mem_char LF (norm_line line) = false.
Proof.
  intros Hline. unfold norm_line, strip. apply strip_chars_free.
  unfold strip_chars. apply lf_last_rstrip; [done|]. by apply lf_last_lstrip.
Qed.

(** The stripped lines of a file hold neither line feed nor carriage
    return. *)
Lemma file_lines_no_break content :
  Forall (fun line => mem_char LF (norm_line line) = false
                      ∧ mem_char CR (norm_line line) = false)
         (file_lines content).
Proof.
  unfold file_lines.
  pose proof (keepends_lf_last (universal_newlines content)) as Hlf.
  pose proof (keepends_free CR _ (universal_newlines_no_cr content)) as Hcr.
  rewrite Forall_forall in Hlf, Hcr. apply Forall_forall. intros line Hline.
  split; [by apply norm_line_no_lf, Hlf|by apply norm_line_free, Hcr].
Qed.

Lemma clean_field_free c p :
  mem_char c p = false → mem_char c (clean_field p) = false.
Proof.
  intros Hp. unfold clean_field, strip. by do 2 apply strip_chars_free.
Qed.

(** The cells made from a stripped line without line break are plain. *)
Lemma line_cells_plain col_count line :
  mem_char LF line = false → mem_char CR line = false →
  Forall plain_text (map clean_field (fit_width col_count (line_fields line)).2).
Proof.
  intros Hlf Hcr.
  assert (Forall plain_text (line_fields line)) as Hparts.
  { unfold line_fields.
    pose proof (split_no_sep PIPE (fix_quotes line)) as H1.
    pose proof (split_free LF PIPE _ (fix_quotes_free LF line Hlf)) as H2.
    pose proof (split_free CR PIPE _ (fix_quotes_free CR line Hcr)) as H3.
    rewrite Forall_forall in H1, H2, H3. apply Forall_forall.
    intros p Hp. repeat split; auto. }
  assert (Forall plain_text (fit_width col_count (line_fields line)).2) as Hfit.
  { unfold fit_width. destruct col_count as [n|]; [|done].
    destruct (length (line_fields line) <? n)%nat; simpl.
    - apply Forall_app. split; [done|]. by apply Forall_replicate.
    - destruct (n <? length (line_fields line))%nat; simpl; [|done].
      by apply Forall_take. }
  apply Forall_fmap. eapply Forall_impl; [exact Hfit|].
  intros p (H1 & H2 & H3). repeat split; by apply clean_field_free.
Qed.

Lemma read_rows_plain nrows lines rows col_count :
  Forall (fun line => mem_char LF (norm_line line) = false
                      ∧ mem_char CR (norm_line line) = false) lines →
  Forall (Forall plain_text) rows →
  Forall (Forall plain_text) (read_rows nrows lines rows col_count).
Proof.
  revert rows col_count.
  induction lines as [|line rest IH]; intros rows col_count Hlines Hrows; [done|].
  apply Forall_cons in Hlines as [[Hlf Hcr] Hrest].
  rewrite read_rows_cons.
  destruct (cap_reached nrows rows); [done|].
  destruct (is_empty (norm_line line)); [by apply IH|].
  cbv zeta. apply IH; [done|].
  apply Forall_app. split; [done|]. constructor; [|done].
  by apply line_cells_plain.
Qed.

End CellCharacters.

(** * More on the parser *)

Section ParserExtras.

Lemma read_rows_negative k lines col_count :
  (k < 0)%Z → read_rows (Some k) lines [] col_count = [].
Proof.
  intros Hk. destruct lines as [|line rest]; [done|].
  assert (cap_reached (Some k) [] = true) as Hcap.
  { unfold cap_reached. apply andb_true_iff. split.
    - apply negb_true_iff. apply Z.eqb_neq. lia.
    - apply Z.leb_le. simpl. lia. }
  by rewrite read_rows_cons, Hcap.
Qed.

(** What the loop returns depends on the lines only through the
    non-blank stripped lines. *)
Lemma read_rows_by_nonblank nrows lines1 lines2 :
  filter (fun l => is_empty l = false) (map norm_line lines1)
  = filter (fun l => is_empty l = false) (map norm_line lines2) →
  read_rows nrows lines1 [] None = read_rows nrows lines2 [] None.
Proof.
  intros Heq.
  assert (read_rows None lines1 [] None = read_rows None lines2 [] None) as Hfull
    by (by rewrite !read_rows_uncapped, Heq).
  destruct nrows as [k|]; [|done].
  destruct (Z.lt_trichotomy k 0) as [Hneg|[->|Hpos]].
  - by rewrite !read_rows_negative.
  - by rewrite !read_rows_cap_zero.
  - rewrite !read_rows_capped by (simpl; lia). by rewrite Hfull.
Qed.

Lemma parse_from_uncapped content nrows :
  cap_allows nrows →
  ∃ n, parse_text_file (Some content) nrows
       = build_frame (take n (read_rows None (file_lines content) [] None))
       ∧ 1 ≤ n.
Proof.
  intros Hcap. unfold parse_text_file. destruct nrows as [k|].
  - simpl in Hcap. destruct (decide (k = 0%Z)) as [->|Hk].
    + exists (S (length (read_rows None (file_lines content) [] None))).
      split; [|lia]. rewrite read_rows_cap_zero. by rewrite take_ge by lia.
    + exists (Z.to_nat k). split; [|lia].
      by rewrite read_rows_capped by (simpl; lia).
  - exists (S (length (read_rows None (file_lines content) [] None))).
    split; [|lia]. by rewrite take_ge by lia.
Qed.

Lemma length_split sep s : length (split sep s) = S (count sep s).
Proof.
  induction s as [|c r IH]; [done|]. rewrite split_cons.
  change (count sep (String c r))
    with ((if is_char sep c then 1 else 0) + count sep r).
  destruct (is_char sep c).
  - simpl. by rewrite IH.
  - destruct (split sep r) as [|h t]; simpl in *; lia.
Qed.

Lemma count_remove_other a c s :
  a ≠ c → count c (remove_char a s) = count c s.
Proof.
  intros Hne. induction s as [|c' r IH]; [done|]. simpl.
  destruct (is_char a c') eqn:Ha.
  - apply is_char_true in Ha as ->.
    destruct (is_char c a) eqn:Hc; [by apply is_char_true in Hc|]. by rewrite IH.
  - simpl. by rewrite IH.
Qed.


Lemma to_crlf_translated s :
  mem_char CR s = false → universal_newlines (to_crlf s) = s.
Proof.
  induction s as [|c r IH]; [done|]. intros Hs.
  apply mem_char_cons in Hs as [Hc Hr]. simpl.
  destruct (is_char LF c) eqn:Hlf.
  - apply is_char_true in Hlf as ->.
    change (universal_newlines (String CR (String LF (to_crlf r))))
      with (String LF (universal_newlines (to_crlf r))).
    by rewrite IH.
  - simpl. destruct (is_char CR c) eqn:Hcr; [by apply is_char_true in Hcr|].
    by rewrite IH.
Qed.

Lemma to_cr_no_lf s : mem_char LF (to_cr s) = false.
Proof.
  induction s as [|c r IH]; [done|]. simpl.
  destruct (is_char LF c) eqn:Hlf.
  - apply mem_char_cons. done.
  - apply mem_char_cons. split; [by apply is_char_false in Hlf|done].
Qed.

Lemma universal_newlines_lone_cr r :
  mem_char LF r = false →
  universal_newlines (String CR r) = String LF (universal_newlines r).
Proof.
  intros Hr. destruct r as [|c r]; [done|].
  apply mem_char_cons in Hr as [Hc _].
  change (universal_newlines (String CR (String c r))) with
    (if is_char LF c then String LF (universal_newlines r)
     else String LF (universal_newlines (String c r))).
  destruct (is_char LF c) eqn:Hlf; [by apply is_char_true in Hlf|done].
Qed.

Lemma to_cr_translated s :
  mem_char CR s = false → universal_newlines (to_cr s) = s.
Proof.
  induction s as [|c r IH]; [done|]. intros Hs.
  apply mem_char_cons in Hs as [Hc Hr]. simpl.
  destruct (is_char LF c) eqn:Hlf.
  - apply is_char_true in Hlf as ->.
    rewrite universal_newlines_lone_cr by apply to_cr_no_lf. by rewrite IH.
  - simpl. destruct (is_char CR c) eqn:Hcr; [by apply is_char_true in Hcr|].
    by rewrite IH.
Qed.

End ParserExtras.

Section ParserExtraTheorems.

(** X1: no column label and no cell of a parsed table holds the
    separator, a line feed or a carriage return, and every cell is a text
    value (the parser produces no missing marker). *)
Theorem parser_cells_plain file nrows df :
  parse_text_file file nrows = Ok df →
  Forall plain_text (columns df)
  ∧ Forall (Forall (text_cell plain_text)) (rows df).
Proof.
  destruct file as [content|]; [|done]. unfold parse_text_file.
  pose proof (read_rows_plain nrows (file_lines content) [] None
                (file_lines_no_break content) (Forall_nil_2 _)) as Hplain.
  destruct (read_rows nrows (file_lines content) [] None) as [|header data];
    [done|].
  apply Forall_cons in Hplain as [Hheader Hdata].
  simpl. intros [= <-]. simpl. split; [done|].
  apply Forall_fmap. eapply Forall_impl; [exact Hdata|].
  intros row Hrow. simpl. apply Forall_fmap.
  eapply Forall_impl; [exact Hrow|]. intros s Hs. by exists s.
Qed.

Lemma parser_cells_plain_witness :
  Forall plain_text ["K"; "V"]
  ∧ Forall (Forall (text_cell plain_text))
      [[Some "a"; Some "1"]; [Some "b"; Some EmptyString]].
Proof.
  apply (parser_cells_plain (Some ragged_content) None
           (mkDataFrame ["K"; "V"] [[Some "a"; Some "1"]; [Some "b"; Some EmptyString]])).
  vm_compute. reflexivity.
Defined.

(** X2: on a file that can be opened the parser raises nothing but
    [IndexError]; with no row cap or a cap that is not negative it
    returns a table exactly when the file has a non-blank line, and with a
    negative cap it always raises. *)
Theorem parser_fails_only_without_rows content nrows :
  (∀ e, parse_text_file (Some content) nrows = Raise e → e = IndexError)
  ∧ (cap_allows nrows →
     ((∃ df, parse_text_file (Some content) nrows = Ok df)
      ↔ nonblank_lines content ≠ []))
  ∧ (¬ cap_allows nrows →
     parse_text_file (Some content) nrows = Raise IndexError).
Proof.
  split; [|split].
  - intros e. unfold parse_text_file.
    destruct (read_rows nrows (file_lines content) [] None); simpl; congruence.
  - intros Hcap.
    destruct (parse_from_uncapped content nrows Hcap) as (n & -> & Hn).
    rewrite read_rows_uncapped. fold (nonblank_lines content).
    destruct (nonblank_lines content) as [|first rest].
    + rewrite take_nil. simpl. split; [by intros [df Hdf]|done].
    + destruct n as [|n]; [lia|]. simpl. split; [done|]. eauto.
  - intros Hcap. destruct nrows as [k|]; [|by destruct Hcap].
    simpl in Hcap. unfold parse_text_file.
    by rewrite read_rows_negative by lia.
Qed.

Lemma parser_fails_only_without_rows_witness :
  ∃ df, parse_text_file (Some abc_content) (Some 50%Z) = Ok df.
Proof.
  apply (proj1 (proj2 (parser_fails_only_without_rows abc_content (Some 50%Z)))).
  - simpl. lia.
  - vm_compute. discriminate.
Defined.

(** X3: two files with the same non-blank lines, up to the whitespace
    around each line, parse to the same result for every row cap: blank
    lines and indentation never change the table. *)
Theorem parser_ignores_blank_lines content1 content2 nrows :
  nonblank_lines content1 = nonblank_lines content2 →
  parse_text_file (Some content1) nrows = parse_text_file (Some content2) nrows.
Proof.
  intros Heq. unfold parse_text_file.
  by rewrite (read_rows_by_nonblank nrows _ _ Heq).
Qed.

Lemma parser_ignores_blank_lines_witness :
  parse_text_file (Some abc_spaced_content) (Some 2%Z)
  = parse_text_file (Some abc_content) (Some 2%Z).
Proof.
  apply (parser_ignores_blank_lines abc_spaced_content abc_content (Some 2%Z)).
  vm_compute. reflexivity.
Defined.

(** X4: a text with Unix line ends and the same text with Windows line
    ends (CR LF) or with lone carriage returns parse to the same result,
    for every row cap. *)
Theorem parser_line_end_convention text nrows :
  mem_char CR text = false →
  parse_text_file (Some (to_crlf text)) nrows = parse_text_file (Some text) nrows
  ∧ parse_text_file (Some (to_cr text)) nrows = parse_text_file (Some text) nrows.
Proof.
  intros Hcr. unfold parse_text_file, file_lines.
  by rewrite to_crlf_translated, to_cr_translated, universal_newlines_id.
Qed.

Lemma parser_line_end_convention_witness :
  parse_text_file (Some (to_crlf abc_content)) None
  = parse_text_file (Some abc_content) None.
Proof.
  apply (proj1 (parser_line_end_convention abc_content None eq_refl)).
Defined.



(** X6: when the file has a non-blank line and the cap allows it, the
    table has one column more than there are separators in the first
    non-blank line, its labels are the cleaned fields of that line, and
    the cap does not change them. *)
Theorem column_count_from_first_line content nrows first rest :
  nonblank_lines content = first :: rest →
  cap_allows nrows →
  ∃ df,
    parse_text_file (Some content) nrows = Ok df
    ∧ columns df = map clean_field (line_fields first)
    ∧ length (columns df) = S (count PIPE first).
Proof.
  intros Hlines Hcap.
  destruct (parse_from_uncapped content nrows Hcap) as (n & -> & Hn).
  rewrite read_rows_uncapped. fold (nonblank_lines content). rewrite Hlines.
  destruct n as [|n]; [lia|]. simpl. eexists. split; [done|]. simpl.
  split; [done|]. rewrite length_map. unfold line_fields.
  rewrite length_split. f_equal. unfold fix_quotes.
  destruct (Nat.odd (count DQ first)); [|done].
  by apply count_remove_other.
Qed.

Lemma column_count_from_first_line_witness :
  ∃ df,
    parse_text_file (Some abc_content) (Some 1%Z) = Ok df
    ∧ columns df = map clean_field (line_fields "A|B|C")
    ∧ length (columns df) = S (count PIPE "A|B|C").
Proof.
  apply (column_count_from_first_line abc_content (Some 1%Z) "A|B|C"
           ["1|2|3"; "4|5"]).
  - vm_compute. reflexivity.
  - simpl. lia.
Defined.

End ParserExtraTheorems.

(** * The table loader *)

Section LoaderFacts.

Lemma get_locs_Ok labels cols :
  labels ⊆ cols →
  ∃ locs, get_locs labels cols = Ok locs ∧ length locs = length labels.
Proof.
  induction labels as [|label rest IH]; intros Hsub; [by exists []|].
  destruct (get_loc_elem label cols) as [i Hi]; [apply Hsub; by left|].
  destruct IH as (locs & Hlocs & Hlen).
  { intros l Hl. apply Hsub. by right. }
  exists (i :: locs). simpl. rewrite Hi, Hlocs. simpl. by rewrite Hlen.
Qed.

Lemma get_locs_resolved labels cols locs :
  get_locs labels cols = Ok locs → labels ⊆ cols ∧ length locs = length labels.
Proof.
  revert locs. induction labels as [|label rest IH]; intros locs.
  - simpl. intros [= <-]. split; [|done]. intros l Hl. by apply elem_of_nil in Hl.
  - simpl. destruct (get_loc label cols) as [i|] eqn:Hi; [|done].
    destruct (get_locs rest cols) as [locs'|] eqn:Hrest; [|done].
    simpl. intros [= <-]. destruct (IH locs' eq_refl) as [Hsub Hlen].
    split; [|simpl; by rewrite Hlen].
    intros l Hl. apply elem_of_cons in Hl as [->|Hl]; [|by apply Hsub].
    apply get_loc_Some in Hi. by eapply list_elem_of_lookup_2.
Qed.

(** Selecting columns and keeping the first rows can be done in either
    order. *)
Lemma getitem_list_head_rows n df labels :
  getitem_list (head_rows n df) labels = head_rows n <$> getitem_list df labels.
Proof.
  unfold getitem_list. simpl.
  destruct (get_locs labels (columns df)) as [locs|]; [|done].
  simpl. unfold head_rows. simpl. by rewrite fmap_take.
Qed.

Lemma getitem_list_shape df labels out :
  getitem_list df labels = Ok out →
  columns out = labels ∧ length (rows out) = length (rows df) ∧ rectangular out.
Proof.
  unfold getitem_list.
  destruct (get_locs labels (columns df)) as [locs|] eqn:Hlocs; [|done].
  simpl. intros [= <-]. simpl. split; [done|]. split; [by rewrite length_map|].
  unfold rectangular. simpl. apply Forall_fmap, Forall_forall. intros r _.
  simpl. rewrite length_map. by apply get_locs_resolved in Hlocs as [_ ->].
Qed.

(** The capped parse, line by line. *)
Lemma parse_capped content k first rest :
  (1 ≤ k)%Z →
  nonblank_lines content = first :: rest →
  parse_text_file (Some content) (Some k) =
    Ok (mkDataFrame
          (map clean_field (line_fields first))
          (map (fun l => map Some (row_at_width (length (line_fields first)) l))
               (take (Z.to_nat k - 1) rest))).
Proof.
  intros Hk Hlines. unfold parse_text_file.
  rewrite read_rows_capped by (simpl; lia).
  rewrite read_rows_uncapped. fold (nonblank_lines content). rewrite Hlines.
  destruct (Z.to_nat k) as [|n] eqn:Hn; [lia|]. simpl.
  by rewrite Nat.sub_0_r, <- fmap_take, <- list_fmap_compose.
Qed.

Lemma parse_capped_head content k :
  (1 ≤ k)%Z →
  parse_text_file (Some content) (Some k) =
    head_rows (Z.to_nat k - 1) <$> parse_text_file (Some content) None.
Proof.
  intros Hk. unfold parse_text_file.
  rewrite read_rows_capped by (simpl; lia). apply build_frame_take. lia.
Qed.

Lemma line_fields_nonempty line : line_fields line ≠ [].
Proof.
  unfold line_fields. intros Hnil.
  pose proof (length_split PIPE (fix_quotes line)) as Hlen.
  by rewrite Hnil in Hlen.
Qed.

(** X7: what the container of a file shows.  A file that cannot be opened
    or has no non-blank line shows the loading error; a file with a single
    non-blank line (a header without data) is reported as empty; otherwise
    the options offered are the labels of the first non-blank line, an
    empty choice asks for a column, and a choice among the options shows
    the chosen columns of at most 49 data rows. *)
Theorem table_setup_views multiselect :
  table_setup None multiselect = Ok (ErrorLoadingPreview OSError)
  ∧ ∀ content,
      (nonblank_lines content = [] →
       table_setup (Some content) multiselect = Ok (ErrorLoadingPreview IndexError))
      ∧ (∀ only, nonblank_lines content = [only] →
         table_setup (Some content) multiselect = Ok AppearsEmpty)
      ∧ (∀ first second rest,
           nonblank_lines content = first :: second :: rest →
           let all_cols := map clean_field (line_fields first) in
           (multiselect all_cols = [] →
            table_setup (Some content) multiselect = Ok SelectAtLeastOne)
           ∧ (multiselect all_cols ≠ [] →
              multiselect all_cols ⊆ all_cols →
              NoDup all_cols →
              ∃ shown,
                table_setup (Some content) multiselect
                  = Ok (PreviewShown all_cols shown)
                ∧ columns shown = multiselect all_cols
                ∧ length (rows shown) = Nat.min 49 (S (length rest)))).
Proof.
  split; [done|]. intros content. split; [|split].
  - intros Hblank. unfold table_setup. by rewrite parse_blank.
  - intros only Hlines. unfold table_setup.
    rewrite (parse_capped content 50 only []) by (done || lia). simpl.
    unfold empty. simpl. by destruct (map clean_field (line_fields only)).
  - intros first second rest Hlines all_cols.
    assert (table_setup (Some content) multiselect =
              match multiselect all_cols with
              | [] => Ok SelectAtLeastOne
              | keep_cols =>
                  shown ← getitem_list
                             (mkDataFrame all_cols
                                (map (fun l => map Some
                                        (row_at_width (length (line_fields first)) l))
                                     (take 49 (second :: rest))))
                             keep_cols;
                  Ok (PreviewShown all_cols shown)
              end) as Hsetup.
    { unfold table_setup.
      rewrite (parse_capped content 50 first (second :: rest)) by (done || lia).
      fold all_cols. unfold empty. simpl.
      destruct all_cols eqn:Hcols.
      - apply fmap_nil_inv in Hcols. by apply line_fields_nonempty in Hcols.
      - by destruct (multiselect (s :: l)). }
    split.
    + intros Hnone. by rewrite Hsetup, Hnone.
    + intros Hsome Hsub _. rewrite Hsetup.
      destruct (multiselect all_cols) as [|label labels] eqn:Hkeep; [done|].
      destruct (get_locs_Ok (label :: labels) all_cols Hsub) as (locs & Hlocs & _).
      unfold getitem_list. simpl columns. rewrite Hlocs. simpl.
      eexists. split; [done|]. simpl. split; [done|].
      rewrite !length_map, length_take. simpl. lia.
Qed.

Lemma table_setup_views_witness :
  ∃ shown,
    table_setup (Some abc_content) (take 2)
      = Ok (PreviewShown (map clean_field (line_fields "A|B|C")) shown)
    ∧ columns shown = take 2 (map clean_field (line_fields "A|B|C"))
    ∧ length (rows shown) = Nat.min 49 2.
Proof.
  apply (proj2 (proj2 (proj2 (proj2 (table_setup_views (take 2)) abc_content))
                  "A|B|C" "1|2|3" ["4|5"] ltac:(vm_compute; reflexivity))).
  - vm_compute. discriminate.
  - apply (bool_decide_unpack _). vm_compute. exact I.
  - apply (bool_decide_unpack _). vm_compute. exact I.
Defined.

(** X8: when the preview of a file is shown and the download button
    reads the same content with the same choice of columns, the two lines
    that prepare the download (the full parse and [df_full[keep_cols]])
    raise nothing; the frame they pass to [export_df] has exactly the
    chosen columns, is rectangular, has one row per non-blank line after
    the first, and the preview shown is its first 49 rows.  What
    [export_df] does with that frame is not part of the statement. *)
Theorem download_frame_matches_preview content multiselect all_cols shown :
  NoDup all_cols →
  table_setup (Some content) multiselect = Ok (PreviewShown all_cols shown) →
  ∃ full,
    download_frame (Some content) (multiselect all_cols) = Ok full
    ∧ shown = head_rows 49 full
    ∧ columns full = multiselect all_cols
    ∧ rectangular full
    ∧ S (length (rows full)) = length (nonblank_lines content).
Proof.
  intros _. unfold table_setup, download_frame.
  rewrite (parse_capped_head content 50) by lia.
  destruct (nonblank_lines content) as [|first rest] eqn:Hlines.
  { by rewrite (parse_blank content None Hlines). }
  rewrite (parse_uncapped content first rest Hlines). simpl.
  set (full_df := mkDataFrame _ _).
  destruct (empty (head_rows 49 full_df)); [done|].
  destruct (multiselect (map clean_field (line_fields first)))
    as [|label labels] eqn:Hkeep; [done|].
  rewrite getitem_list_head_rows.
  destruct (getitem_list full_df (label :: labels)) as [full|e] eqn:Hfull; [|done].
  simpl. intros [= <- <-]. rewrite Hkeep. exists full. split; [done|].
  destruct (getitem_list_shape _ _ _ Hfull) as (Hcols & Hrows & Hrect).
  repeat split; try done.
  rewrite Hrows. unfold full_df. simpl. by rewrite length_map.
Qed.

Lemma download_frame_matches_preview_witness :
  ∃ full,
    download_frame (Some abc_content) (take 2 ["A"; "B"; "C"]) = Ok full
    ∧ mkDataFrame ["A"; "B"] [[Some "1"; Some "2"]; [Some "4"; Some "5"]]
      = head_rows 49 full
    ∧ columns full = take 2 ["A"; "B"; "C"]
    ∧ rectangular full
    ∧ S (length (rows full)) = length (nonblank_lines abc_content).
Proof.
  apply (download_frame_matches_preview abc_content (take 2) ["A"; "B"; "C"]
           (mkDataFrame ["A"; "B"] [[Some "1"; Some "2"]; [Some "4"; Some "5"]])).
  - apply (bool_decide_unpack _). vm_compute. exact I.
  - vm_compute. reflexivity.
Defined.

End LoaderFacts.

(** * More on the lookup *)

Section LookupExtras.

Lemma bind_Ok {A B} (a : A) (k : A → res B) : (Ok a ≫= k) = k a.
Proof. reflexivity. Qed.

Lemma get_loc_spec label cols j :
  get_loc label cols = Some j ↔
    cols !! j = Some label ∧ ∀ k, k < j → cols !! k ≠ Some label.
Proof.
  unfold get_loc. rewrite fmap_Some. split.
  - intros ([j' c] & Hfind & ->). apply list_find_Some in Hfind as (Hj & Hc & Hmin).
    simpl in *. subst c. split; [done|]. intros k Hk Hlabel.
    by apply (Hmin k label).
  - intros [Hj Hmin]. exists (j, label). split; [|done].
    apply list_find_Some. split; [done|]. split; [done|].
    intros k c Hc Hk ->. by apply (Hmin k).
Qed.

(** Deleting another column moves a label by at most one place and keeps
    what is read at its place in every row. *)
Lemma get_loc_delete cols i j sk so :
  cols !! i = Some sk → sk ≠ so → get_loc so cols = Some j →
  ∃ j', get_loc so (delete i cols) = Some j'
        ∧ ∀ row : list cell, delete i row !! j' = row !! j.
Proof.
  intros Hi Hne Hj. apply get_loc_spec in Hj as [Hj Hmin].
  assert (j ≠ i) as Hji by (intros ->; congruence).
  destruct (decide (j < i)) as [Hlt|Hge].
  - exists j. split; [|intros row; by apply list_lookup_delete_lt].
    apply get_loc_spec. split; [by rewrite list_lookup_delete_lt|].
    intros k Hk. rewrite list_lookup_delete_lt by lia. by apply Hmin.
  - exists (pred j). split.
    + apply get_loc_spec. split.
      * rewrite list_lookup_delete_ge by lia. by replace (S (pred j)) with j by lia.
      * intros k Hk. destruct (decide (k < i)).
        -- rewrite list_lookup_delete_lt by lia. apply Hmin. lia.
        -- rewrite list_lookup_delete_ge by lia. apply Hmin. lia.
    + intros row. rewrite list_lookup_delete_ge by lia.
      by replace (S (pred j)) with j by lia.
Qed.

(** The lookup of a rule whose labels resolve and whose key and source
    labels differ: the key column of the result mapped through the
    secondary key column onto the secondary source column. *)
Lemma lookup_values_resolved result secondary pk sk so jpk jsk jso :
  sk ≠ so →
  get_loc pk (columns result) = Some jpk →
  get_loc sk (columns secondary) = Some jsk →
  get_loc so (columns secondary) = Some jso →
  lookup_values result secondary pk sk so =
    series_map (column_at jpk result)
      (mkSeries (column_at jsk secondary) (column_at jso secondary)).
Proof.
  intros Hne Hpk Hsk Hso.
  set (rest := mkDataFrame (delete jsk (columns secondary))
                 (map (delete jsk) (rows secondary))).
  assert (set_index secondary sk = Ok (column_at jsk secondary, rest)) as Hset.
  { unfold set_index. by rewrite Hsk. }
  assert (getitem rest so = Ok (column_at jso secondary)) as Hsource.
  { destruct (get_loc_delete (columns secondary) jsk jso sk so)
      as (j' & Hj' & Hrow); [by apply get_loc_Some|done..|].
    unfold getitem. change (columns rest) with (delete jsk (columns secondary)).
    rewrite Hj'. f_equal. unfold column_at.
    change (rows rest) with (map (delete jsk) (rows secondary)).
    rewrite <- list_fmap_compose.
    apply list_fmap_ext. intros _ row _. simpl. by rewrite Hrow. }
  assert (getitem result pk = Ok (column_at jpk result)) as Hkeys.
  { unfold getitem. by rewrite Hpk. }
  unfold lookup_values. rewrite Hset, bind_Ok. cbn [fst snd].
  rewrite Hsource, bind_Ok, Hkeys, bind_Ok. done.
Qed.

(** A value that is an index label is mapped to the mapper's value at the
    place of that label. *)
Lemma series_map_found values keys source out i v m :
  series_map values (mkSeries keys source) = Ok out →
  values !! i = Some v → keys !! m = Some v →
  out !! i = Some (default None (source !! m)).
Proof.
  unfold series_map, get_indexer. simpl.
  destruct (decide (NoDup keys)) as [Hnodup|]; [|done].
  intros [= <-] Hv Hm. unfold take_nd.
  rewrite !list_lookup_fmap, Hv. simpl.
  assert (list_find (fun k => k = v) keys = Some (m, v)) as ->; [|done].
  apply list_find_Some. split; [done|]. split; [done|].
  intros k y Hk Hlt ->. assert (k = m) by (by eapply NoDup_lookup). lia.
Qed.

(** [lookup_values] raises nothing but [KeyError] and
    [InvalidIndexError]. *)
Lemma lookup_values_Raise result secondary pk sk so e :
  lookup_values result secondary pk sk so = Raise e →
  e = InvalidIndexError ∨ ∃ label, e = KeyError label.
Proof.
  unfold lookup_values.
  destruct (set_index secondary sk) as [[keys rest]|e1] eqn:Hsk; simpl;
    [|intros [= <-]; apply set_index_Raise in Hsk; eauto].
  destruct (getitem rest so) as [source|e1] eqn:Hso; simpl;
    [|intros [= <-]; apply getitem_Raise in Hso; eauto].
  destruct (getitem result pk) as [targets|e1] eqn:Hpk; simpl;
    [|intros [= <-]; apply getitem_Raise in Hpk; eauto].
  unfold series_map, get_indexer. simpl.
  destruct (decide (NoDup keys)); [done|]. intros [= <-]. by left.
Qed.

(** With distinct labels, the key column is gone after [set_index]: the
    source label of a rule with [sk = so] is not found. *)
Lemma lookup_values_same_label result secondary pk sk :
  NoDup (columns secondary) → sk ∈ columns secondary →
  lookup_values result secondary pk sk sk = Raise (KeyError sk).
Proof.
  intros Hnodup Hin.
  destruct (get_loc_elem sk _ Hin) as [i Hi].
  set (rest := mkDataFrame (delete i (columns secondary))
                 (map (delete i) (rows secondary))).
  assert (set_index secondary sk = Ok (column_at i secondary, rest)) as Hset.
  { unfold set_index. by rewrite Hi. }
  unfold lookup_values. rewrite Hset, bind_Ok. cbn [fst snd].
  rewrite (getitem_missing rest sk); [reflexivity|].
  change (columns rest) with (delete i (columns secondary)).
  apply get_loc_Some in Hi. intros Hdel.
  apply list_elem_of_lookup_1 in Hdel as [j Hj].
  destruct (decide (j < i)).
  - rewrite list_lookup_delete_lt in Hj by lia.
    assert (j = i) by (by eapply NoDup_lookup). lia.
  - rewrite list_lookup_delete_ge in Hj by lia.
    assert (S j = i) by (by eapply NoDup_lookup). lia.
Qed.

(** A rule whose lookup gives values, inside a run: its column is
    appended with these values and both stay in the final result. *)
Lemma successful_rule_cells h primary_df secondary_df (before after : list Rule)
    pk sk so st1 values :
  rectangular (obj h primary_df) →
  run_lookup h primary_df secondary_df before = Some (next h, st1) →
  lookup_values (obj (heap st1) (next h)) (obj (heap st1) secondary_df) pk sk so
    = Ok values →
  ∃ st2 out name,
    rule_step (next h) secondary_df (S (length before)) (pk, sk, so) st1 = Some st2
    ∧ reported st2 = reported st1
    ∧ new_column_name (used_columns st1) pk so = Some name
    ∧ columns (result_frame (next h) st2)
      = columns (obj (heap st1) (next h)) ++ [name]
    ∧ run_lookup h primary_df secondary_df (before ++ (pk, sk, so) :: after)
      = Some out
    ∧ columns (result_of out) !! length (columns (obj (heap st1) (next h)))
      = Some name
    ∧ ∀ i row v,
        rows (obj (heap st1) (next h)) !! i = Some row →
        values !! i = Some v →
        ∃ more, rows (result_of out) !! i = Some (row ++ v :: more)
                ∧ (row ++ v :: more) !! length (columns (obj (heap st1) (next h)))
                  = Some v.
Proof.
  intros Hrect Hbefore Hvalues.
  destruct (run_lookup_inv _ _ _ _ _ Hbefore) as (_ & Hused1 & Hext1 & Hframe).
  set (R1 := obj (heap st1) (next h)) in *.
  destruct (rule_step_spec (next h) secondary_df (S (length before)) pk sk so st1)
    as (name & st2 & Hstep & Hname & (k & _ & Hfree & _) & Hreg & Hcases).
  unfold result_frame, secondary_frame in Hcases. fold R1 in Hcases.
  rewrite Hvalues in Hcases. destruct Hcases as [Hheap Hrep].
  destruct (run_lookup_middle _ _ _ _ after _ _ _ Hbefore Hstep)
    as (st3 & Hrun & Hafter).
  assert (name ∉ columns R1) as Hfresh.
  { intros Hin. by apply Hfree, Hused1. }
  assert (result_frame (next h) st2 =
            mkDataFrame (columns R1 ++ [name])
              (zip_with (fun r v => r ++ [v]) (rows R1) values)) as HR2.
  { unfold result_frame. rewrite Hheap, result_frame_store.
    by apply setitem_fresh. }
  destruct (rule_step_inv (next h) secondary_df R1 _ _ _ _ Hstep Hused1
              (extends_refl _)) as (Hused2 & _).
  destruct (run_rules_inv (next h) secondary_df (result_frame (next h) st2)
              _ _ _ _ Hafter Hused2 (extends_refl _)) as (_ & Hext3 & _).
  exists st2, (next h, st3), name. repeat split; try done.
  - by rewrite HR2.
  - destruct Hext3 as (new_cols & _ & Hcols & _).
    unfold result_of. simpl. unfold result_frame in Hcols. rewrite Hcols.
    fold (result_frame (next h) st2). rewrite HR2. simpl.
    rewrite <- app_assoc. simpl. by apply list_lookup_middle.
  - intros i row v Hrow Hvalue.
    assert (rows (result_frame (next h) st2) !! i = Some (row ++ [v])) as Hrow2.
    { rewrite HR2. simpl. rewrite lookup_zip_with, Hrow. simpl.
      by rewrite Hvalue. }
    destruct (extends_lookup _ _ _ _ Hext3 Hrow2) as [more Hrow3].
    exists more. rewrite <- app_assoc in Hrow3. simpl in Hrow3.
    split; [exact Hrow3|].
    assert (length row = length (columns R1)) as <-.
    { pose proof (extends_rectangular _ _ Hrect Hext1) as HrectR.
      unfold rectangular in HrectR. rewrite Forall_lookup in HrectR.
      by apply (HrectR i). }
    by apply list_lookup_middle.
Qed.

Lemma rule_step_nodup result_df secondary_df idx rule st st' :
  rule_step result_df secondary_df idx rule st = Some st' →
  cols_used result_df st →
  NoDup (columns (result_frame result_df st)) →
  NoDup (columns (result_frame result_df st')).
Proof.
  destruct rule as [[pk sk] so]. intros Hstep Hused Hnodup.
  destruct (rule_step_spec result_df secondary_df idx pk sk so st)
    as (name & st2 & Hstep' & _ & (k & _ & Hfree & _) & _ & Hcases).
  rewrite Hstep in Hstep'. injection Hstep' as <-.
  destruct (lookup_values _ _ pk sk so) as [values|e].
  - destruct Hcases as [Hheap _]. unfold result_frame at 1.
    rewrite Hheap, result_frame_store.
    assert (name ∉ columns (result_frame result_df st)) as Hfresh.
    { intros Hin. by apply Hfree, Hused. }
    rewrite setitem_fresh by done. simpl. apply NoDup_app.
    split; [done|]. split; [|apply NoDup_singleton].
    intros c Hc Hname. apply list_elem_of_singleton in Hname as ->. done.
  - destruct Hcases as [Hheap _]. unfold result_frame in *. by rewrite Hheap.
Qed.

Lemma run_rules_nodup result_df secondary_df idx rules st st' :
  run_rules result_df secondary_df idx rules st = Some st' →
  cols_used result_df st →
  NoDup (columns (result_frame result_df st)) →
  NoDup (columns (result_frame result_df st')).
Proof.
  revert idx st. induction rules as [|rule rules IH]; intros idx st Hrun Hused Hnodup.
  - simpl in Hrun. by injection Hrun as <-.
  - rewrite run_rules_cons in Hrun.
    destruct (rule_step result_df secondary_df idx rule st) as [st1|] eqn:Hstep;
      [|done]. simpl in Hrun.
    destruct (rule_step_inv result_df secondary_df (result_frame result_df st)
                idx rule st st1 Hstep Hused (extends_refl _)) as (Hused1 & _).
    eapply IH; [exact Hrun|done|]. by eapply rule_step_nodup.
Qed.

(** The reports added by the loop name, in ascending order, rules of the
    sequence by their index, with the exception the lookup raised. *)
Lemma run_rules_reports result_df secondary_df idx (rules : list Rule) st st' :
  run_rules result_df secondary_df idx rules st = Some st' →
  ∃ new,
    reported st' = reported st ++ new
    ∧ (fun rep : Report => rep.1.1) <$> new `sublist_of` seq idx (length rules)
    ∧ Forall (fun rep : Report =>
                idx ≤ rep.1.1 ∧ rules !! (rep.1.1 - idx) = Some rep.1.2
                ∧ (rep.2 = InvalidIndexError ∨ ∃ label, rep.2 = KeyError label))
             new.
Proof.
  revert idx st. induction rules as [|[[pk sk] so] rules IH]; intros idx st Hrun.
  - simpl in Hrun. injection Hrun as <-. exists []. by rewrite app_nil_r.
  - rewrite run_rules_cons in Hrun.
    destruct (rule_step_spec result_df secondary_df idx pk sk so st)
      as (name & st1 & Hstep & _ & _ & _ & Hcases).
    rewrite Hstep in Hrun. simpl in Hrun.
    destruct (IH _ _ Hrun) as (new & Hnew & Hsub & Hall).
    assert (Forall (fun rep : Report =>
                idx ≤ rep.1.1
                ∧ ((pk, sk, so) :: rules) !! (rep.1.1 - idx) = Some rep.1.2
                ∧ (rep.2 = InvalidIndexError ∨ ∃ label, rep.2 = KeyError label))
              new) as Hall'.
    { eapply Forall_impl; [exact Hall|]. intros rep (Hle & Hrule & He).
      split; [lia|]. split; [|done].
      replace (rep.1.1 - idx) with (S (rep.1.1 - S idx)) by lia. done. }
    destruct (lookup_values _ _ pk sk so) as [values|e] eqn:Hvalues.
    + destruct Hcases as [_ Hrep]. exists new. rewrite Hnew, Hrep.
      split; [done|]. split; [|done]. simpl. by apply sublist_cons.
    + destruct Hcases as [_ Hrep]. exists ((idx, (pk, sk, so), e) :: new).
      rewrite Hnew, Hrep, <- app_assoc. split; [done|]. split.
      * simpl. by apply sublist_skip.
      * constructor; [|done]. simpl. split; [lia|].
        rewrite Nat.sub_diag. split; [done|].
        by apply lookup_values_Raise in Hvalues.
Qed.

End LookupExtras.

Section LookupExtraTheorems.

(** X9: for frames with distinct column labels, a rule whose labels
    resolve, with key label different from source label and a secondary
    key column without repetition: in a row whose key cell equals the key
    cell of a secondary row, the new cell is the source cell of that
    secondary row, and it is still there in the final result. *)
Theorem lookup_found_value h primary_df secondary_df (before after : list Rule)
    pk sk so st1 jpk jsk jso i m row srow :
  secondary_df < next h →
  rectangular (obj h primary_df) →
  NoDup (columns (obj h primary_df)) →
  NoDup (columns (obj h secondary_df)) →
  run_lookup h primary_df secondary_df before = Some (next h, st1) →
  get_loc pk (columns (obj (heap st1) (next h))) = Some jpk →
  get_loc sk (columns (obj h secondary_df)) = Some jsk →
  get_loc so (columns (obj h secondary_df)) = Some jso →
  sk ≠ so →
  NoDup (column_at jsk (obj h secondary_df)) →
  rows (obj (heap st1) (next h)) !! i = Some row →
  rows (obj h secondary_df) !! m = Some srow →
  default None (row !! jpk) = default None (srow !! jsk) →
  ∃ out more,
    run_lookup h primary_df secondary_df (before ++ (pk, sk, so) :: after)
      = Some out
    ∧ rows (result_of out) !! i
      = Some (row ++ default None (srow !! jso) :: more)
    ∧ (row ++ default None (srow !! jso) :: more)
        !! length (columns (obj (heap st1) (next h)))
      = Some (default None (srow !! jso)).
Proof.
  intros Hs Hrect _ _ Hbefore Hpk Hsk Hso Hne Hnodup Hrow Hsrow Hkey.
  destruct (run_lookup_inv _ _ _ _ _ Hbefore) as (_ & _ & _ & Hframe).
  assert (obj (heap st1) secondary_df = obj h secondary_df) as Hsec
    by (apply Hframe; lia).
  set (R1 := obj (heap st1) (next h)) in *.
  set (Sec := obj h secondary_df) in *.
  pose proof (lookup_values_resolved R1 Sec pk sk so jpk jsk jso Hne Hpk Hsk Hso)
    as Hvalues.
  destruct (series_map (column_at jpk R1)
              (mkSeries (column_at jsk Sec) (column_at jso Sec)))
    as [values|e] eqn:Hmap.
  2: { unfold series_map, get_indexer in Hmap. simpl in Hmap.
       by rewrite decide_True in Hmap by done. }
  rewrite <- Hsec in Hvalues.
  destruct (successful_rule_cells h primary_df secondary_df before after
              pk sk so st1 values Hrect Hbefore Hvalues)
    as (st2 & out & name & _ & _ & _ & _ & Hrun & _ & Hcells).
  assert (values !! i = Some (default None (srow !! jso))) as Hvalue.
  { assert (column_at jso Sec !! m = Some (default None (srow !! jso))) as Hsource
      by (unfold column_at; by rewrite list_lookup_fmap, Hsrow).
    erewrite (series_map_found _ _ _ _ i _ m Hmap); [by rewrite Hsource| |].
    - unfold column_at. by rewrite list_lookup_fmap, Hrow.
    - unfold column_at. rewrite list_lookup_fmap, Hsrow. simpl. by rewrite Hkey. }
  destruct (Hcells i row _ Hrow Hvalue) as (more & Hfinal & Hcell).
  by exists out, more.
Qed.

Lemma lookup_found_value_witness :
  ∃ out more,
    run_lookup (two_frames ids_primary ids_secondary) 0 1 [("ID", "ID", "NAME")]
      = Some out
    ∧ rows (result_of out) !! 2 = Some ([Some "3"] ++ Some "y" :: more).
Proof.
  destruct (lookup_found_value (two_frames ids_primary ids_secondary) 0 1 [] []
              "ID" "ID" "NAME"
              (init_state (two_frames ids_primary ids_secondary) 0)
              0 0 1 2 1 [Some "3"] [Some "3"; Some "y"])
    as (out & more & Hrun & Hrow & _).
  - simpl. lia.
  - apply (bool_decide_unpack _). vm_compute. exact I.
  - apply (bool_decide_unpack _). vm_compute. exact I.
  - apply (bool_decide_unpack _). vm_compute. exact I.
  - reflexivity.
  - reflexivity.
  - reflexivity.
  - reflexivity.
  - discriminate.
  - apply (bool_decide_unpack _). vm_compute. exact I.
  - reflexivity.
  - reflexivity.
  - reflexivity.
  - exists out, more. split; [exact Hrun|exact Hrow].
Defined.

(** X10: what becomes of a rule whose labels resolve, for a primary and
    a secondary frame that both have pairwise distinct column labels: it
    appends its column, with nothing reported, exactly when its key label
    differs from its source label and the secondary key column has no
    repeated value; with equal labels it is reported with [KeyError] on
    that label, and with a repeated key value with [InvalidIndexError].
    In both failures the heap is left as it was. *)
Theorem rule_outcome h primary_df secondary_df (before : list Rule)
    pk sk so st1 keys :
  secondary_df < next h →
  NoDup (columns (obj h primary_df)) →
  NoDup (columns (obj h secondary_df)) →
  run_lookup h primary_df secondary_df before = Some (next h, st1) →
  columns_resolve (obj (heap st1) (next h)) (obj h secondary_df) (pk, sk, so) →
  getitem (obj h secondary_df) sk = Ok keys →
  ∃ st2 name,
    rule_step (next h) secondary_df (S (length before)) (pk, sk, so) st1 = Some st2
    ∧ new_column_name (used_columns st1) pk so = Some name
    ∧ ((sk ≠ so ∧ NoDup keys
        ∧ reported st2 = reported st1
        ∧ columns (result_frame (next h) st2)
          = columns (obj (heap st1) (next h)) ++ [name]
        ∧ length (rows (result_frame (next h) st2))
          = length (rows (obj (heap st1) (next h))))
       ∨ (sk = so
          ∧ heap st2 = heap st1
          ∧ reported st2
            = reported st1 ++ [(S (length before), (pk, sk, so), KeyError so)])
       ∨ (sk ≠ so ∧ ¬ NoDup keys
          ∧ heap st2 = heap st1
          ∧ reported st2
            = reported st1
              ++ [(S (length before), (pk, sk, so), InvalidIndexError)])).
Proof.
  intros Hs _ Hlabels Hbefore Hres Hkeys.
  destruct (run_lookup_inv _ _ _ _ _ Hbefore) as (_ & Hused1 & _ & Hframe).
  assert (obj (heap st1) secondary_df = obj h secondary_df) as Hsec
    by (apply Hframe; lia).
  destruct (rule_step_spec (next h) secondary_df (S (length before)) pk sk so st1)
    as (name & st2 & Hstep & Hname & (k & _ & Hfree & _) & Hreg & Hcases).
  unfold result_frame, secondary_frame in Hcases. rewrite Hsec in Hcases.
  exists st2, name. split; [done|]. split; [done|].
  destruct (decide (sk = so)) as [->|Hne].
  - right. left. destruct Hres as (_ & Hin & _).
    rewrite (lookup_values_same_label _ _ pk so Hlabels Hin) in Hcases.
    by destruct Hcases.
  - destruct (decide (NoDup keys)) as [Hnodup|Hdup].
    + left.
      destruct (lookup_values_Ok _ _ pk sk so keys Hres Hne Hkeys Hnodup)
        as (j & source & values & _ & _ & Hvalues).
      rewrite Hvalues in Hcases. destruct Hcases as [Hheap Hrep].
      assert (name ∉ columns (obj (heap st1) (next h))) as Hfresh.
      { intros Hin. by apply Hfree, Hused1. }
      unfold result_frame. rewrite Hheap, result_frame_store.
      rewrite setitem_fresh by done. simpl.
      repeat split; try done.
      apply lookup_values_length in Hvalues.
      rewrite length_zip_with. lia.
    + right. right.
      destruct (lookup_values_duplicates (obj (heap st1) (next h))
                  (obj h secondary_df) pk sk so keys Hkeys Hdup)
        as (e & Hraise & He).
      rewrite Hraise in Hcases. rewrite (He Hres Hne) in Hcases.
      by destruct Hcases.
Qed.

Lemma rule_outcome_witness :
  ∃ st2,
    rule_step 2 1 1 ("ID", "ID", "ID")
      (init_state (two_frames one_primary one_secondary) 0) = Some st2
    ∧ reported st2 = [(1, ("ID", "ID", "ID"), KeyError "ID")].
Proof.
  destruct (rule_outcome (two_frames one_primary one_secondary) 0 1 []
              "ID" "ID" "ID"
              (init_state (two_frames one_primary one_secondary) 0)
              [Some "2"])
    as (st2 & name & Hstep & _ & [(Hne & _)|[(_ & _ & Hrep)|(Hne & _)]]).
  - simpl. lia.
  - apply (bool_decide_unpack _). vm_compute. exact I.
  - apply (bool_decide_unpack _). vm_compute. exact I.
  - reflexivity.
  - apply (bool_decide_unpack _). vm_compute. exact I.
  - reflexivity.
  - destruct (Hne eq_refl).
  - exists st2. split; [exact Hstep|exact Hrep].
  - destruct (Hne eq_refl).
Defined.

(** X11: the lookup keeps the shape of a table: from a rectangular
    primary frame with distinct column labels the result is rectangular
    and its column labels are distinct, whatever the rules are and
    whichever of them fail. *)
Theorem merge_keeps_table_shape h primary_df secondary_df rules :
  rectangular (obj h primary_df) →
  NoDup (columns (obj h primary_df)) →
  ∃ out,
    run_lookup h primary_df secondary_df rules = Some out
    ∧ rectangular (result_of out)
    ∧ NoDup (columns (result_of out)).
Proof.
  intros Hrect Hnodup.
  destruct (run_lookup_spec h primary_df secondary_df rules)
    as (st & Hrun & Hrules & _ & Hext & _).
  exists (next h, st). split; [done|]. unfold result_of. simpl. split.
  - by eapply extends_rectangular.
  - eapply (run_rules_nodup (next h)); [exact Hrules|apply init_state_cols_used|].
    by rewrite init_state_frame.
Qed.

Lemma merge_keeps_table_shape_witness :
  ∃ out,
    run_lookup (two_frames ids_primary ids_secondary) 0 1
      [("ID", "ID", "NAME"); ("ID", "NAME", "NAME"); ("ID", "ID", "NAME")]
      = Some out
    ∧ rectangular (result_of out)
    ∧ NoDup (columns (result_of out)).
Proof.
  apply (merge_keeps_table_shape (two_frames ids_primary ids_secondary) 0 1).
  - apply (bool_decide_unpack _). vm_compute. exact I.
  - apply (bool_decide_unpack _). vm_compute. exact I.
Defined.

(** X12: every rule either adds one column or is reported once; the
    reports come in rule order and each carries the index (from 1) and the
    labels of the rule it is about.  When the column labels of the primary
    and of the secondary frame are pairwise distinct, the exception
    reported is [KeyError] or [InvalidIndexError]. *)
Theorem reports_identify_rules h primary_df secondary_df (rules : list Rule) :
  ∃ out,
    run_lookup h primary_df secondary_df rules = Some out
    ∧ length (columns (result_of out)) + length (reported out.2)
      = length rules + length (columns (obj h primary_df))
    ∧ (fun rep : Report => rep.1.1) <$> reported out.2
        `sublist_of` seq 1 (length rules)
    ∧ (∀ idx rule e,
         (idx, rule, e) ∈ reported out.2 →
         1 ≤ idx ∧ rules !! (idx - 1) = Some rule)
    ∧ (NoDup (columns (obj h primary_df)) →
       NoDup (columns (obj h secondary_df)) →
       ∀ idx rule e,
         (idx, rule, e) ∈ reported out.2 →
         e = InvalidIndexError ∨ ∃ label, e = KeyError label).
Proof.
  destruct (run_lookup_spec h primary_df secondary_df rules)
    as (st & Hrun & Hrules & _ & _ & _ & Hcount).
  destruct (run_rules_reports _ _ _ _ _ _ Hrules) as (new & Hnew & Hsub & Hall).
  assert (reported st = new) as Hrep by (rewrite Hnew; reflexivity).
  exists (next h, st). split; [done|]. split; [done|]. simpl. rewrite Hrep.
  split; [done|]. rewrite Forall_forall in Hall. split.
  - intros idx rule e Hin.
    destruct (Hall (idx, rule, e) Hin) as (Hidx & Hrule & _). by split.
  - intros _ _ idx rule e Hin.
    by destruct (Hall (idx, rule, e) Hin) as (_ & _ & Hkind).
Qed.

Lemma reports_identify_rules_witness :
  ∃ out,
    run_lookup (two_frames ids_primary ids_secondary) 0 1
      [("ID", "ID", "NAME"); ("ID", "GONE", "NAME")] = Some out
    ∧ length (columns (result_of out)) + length (reported out.2) = 2 + 1
    ∧ ∀ idx rule e,
        (idx, rule, e) ∈ reported out.2 →
        e = InvalidIndexError ∨ ∃ label, e = KeyError label.
Proof.
  destruct (reports_identify_rules (two_frames ids_primary ids_secondary) 0 1
              [("ID", "ID", "NAME"); ("ID", "GONE", "NAME")])
    as (out & Hrun & Hcount & _ & _ & Hkinds).
  exists out. split; [exact Hrun|]. split; [exact Hcount|].
  apply Hkinds.
  - apply (bool_decide_unpack _). vm_compute. exact I.
  - apply (bool_decide_unpack _). vm_compute. exact I.
Defined.

End LookupExtraTheorems.

(** * Rules picked in the select boxes, and the whole script *)

Section ScriptFacts.

Lemma extends_columns base df c :
  extends base df → c ∈ columns base → c ∈ columns df.
Proof.
  intros (new_cols & _ & -> & _) Hc. apply elem_of_app. by left.
Qed.

(** The outcome of the lookup of a picked rule. *)
Lemma lookup_values_picked result secondary pk sk so :
  NoDup (columns secondary) →
  columns_resolve result secondary (pk, sk, so) →
  match rule_fails_with secondary (pk, sk, so) with
  | Some e => lookup_values result secondary pk sk so = Raise e
  | None => ∃ values, lookup_values result secondary pk sk so = Ok values
  end.
Proof.
  intros Hlabels Hres. unfold rule_fails_with.
  destruct (decide (sk = so)) as [->|Hne].
  - destruct Hres as (_ & Hin & _). by apply lookup_values_same_label.
  - destruct Hres as (Hpk & Hsk & Hso).
    destruct (getitem_Ok _ _ Hsk) as (i & _ & Hkeys). rewrite Hkeys.
    destruct (decide (NoDup (column_at i secondary))) as [Hnodup|Hdup].
    + destruct (lookup_values_Ok result secondary pk sk so _
                  (conj Hpk (conj Hsk Hso)) Hne Hkeys Hnodup)
        as (j & source & values & _ & _ & Hvalues).
      by exists values.
    + destruct (lookup_values_duplicates result secondary pk sk so _ Hkeys Hdup)
        as (e & Hraise & He).
      by rewrite Hraise, (He (conj Hpk (conj Hsk Hso)) Hne).
Qed.

Lemma expected_reports_cons secondary idx rule (rules : list Rule) :
  expected_reports secondary idx (rule :: rules) =
    match rule_fails_with secondary rule with
    | Some e => (idx, rule, e) :: expected_reports secondary (S idx) rules
    | None => expected_reports secondary (S idx) rules
    end.
Proof. reflexivity. Qed.

Lemma run_rules_expected result_df secondary_df primary secondary idx
    (rules : list Rule) st st' :
  result_df ≠ secondary_df →
  secondary_frame secondary_df st = secondary →
  NoDup (columns secondary) →
  cols_used result_df st →
  extends primary (result_frame result_df st) →
  Forall (picked_from primary secondary) rules →
  run_rules result_df secondary_df idx rules st = Some st' →
  reported st' = reported st ++ expected_reports secondary idx rules.
Proof.
  intros Hloc. revert idx st.
  induction rules as [|[[pk sk] so] rules IH];
    intros idx st Hsec Hlabels Hused Hext Hpicked Hrun.
  - simpl in Hrun. injection Hrun as <-. by rewrite app_nil_r.
  - apply Forall_cons in Hpicked as [(Hpk & Hsk & Hso) Hpicked].
    rewrite run_rules_cons in Hrun.
    destruct (rule_step_spec result_df secondary_df idx pk sk so st)
      as (name & st1 & Hstep & _ & _ & _ & Hcases).
    rewrite Hstep in Hrun. simpl in Hrun.
    destruct (rule_step_inv result_df secondary_df primary idx _ st st1 Hstep
                Hused Hext) as (Hused1 & Hext1 & _ & _ & Hframe & _).
    assert (secondary_frame secondary_df st1 = secondary) as Hsec1.
    { unfold secondary_frame in *. rewrite Hframe by done. exact Hsec. }
    rewrite (IH _ _ Hsec1 Hlabels Hused1 Hext1 Hpicked Hrun).
    rewrite Hsec in Hcases.
    assert (columns_resolve (result_frame result_df st) secondary (pk, sk, so))
      as Hres.
    { split; [by eapply extends_columns|done]. }
    pose proof (lookup_values_picked _ _ pk sk so Hlabels Hres) as Hout.
    rewrite expected_reports_cons.
    destruct (rule_fails_with secondary (pk, sk, so)) as [e|].
    + rewrite Hout in Hcases. destruct Hcases as [_ Hrep].
      rewrite Hrep, <- app_assoc. reflexivity.
    + destruct Hout as [values Hvalues]. rewrite Hvalues in Hcases.
      destruct Hcases as [_ Hrep]. by rewrite Hrep.
Qed.

Lemma row_at_width_length n line : length (row_at_width n line) = n.
Proof.
  unfold row_at_width. rewrite length_map.
  by destruct (fit_width_locked n (line_fields line)) as [_ ->].
Qed.

(** X13: for a primary and a secondary table that both have pairwise
    distinct column labels and rules picked in the select boxes, which
    rules fail does not depend on the cells of the primary table: the
    reports are exactly, in rule order, the rules whose key label is also
    their source label ([KeyError]) and the rules whose key column has a
    repeated value ([InvalidIndexError]); every other rule adds its
    column. *)
Theorem reports_decided_by_secondary h primary_df secondary_df (rules : list Rule) :
  secondary_df < next h →
  NoDup (columns (obj h primary_df)) →
  NoDup (columns (obj h secondary_df)) →
  Forall (picked_from (obj h primary_df) (obj h secondary_df)) rules →
  ∃ out,
    run_lookup h primary_df secondary_df rules = Some out
    ∧ reported out.2 = expected_reports (obj h secondary_df) 1 rules
    ∧ length (columns (result_of out))
      + length (expected_reports (obj h secondary_df) 1 rules)
      = length rules + length (columns (obj h primary_df)).
Proof.
  intros Hs _ Hlabels Hpicked.
  destruct (run_lookup_spec h primary_df secondary_df rules)
    as (st & Hrun & Hrules & _ & _ & _ & Hcount).
  exists (next h, st). split; [done|].
  assert (reported st = expected_reports (obj h secondary_df) 1 rules) as Hrep.
  { apply (run_rules_expected (next h) secondary_df (obj h primary_df)
             (obj h secondary_df) 1 rules (init_state h primary_df) st);
      try done.
    - lia.
    - unfold secondary_frame. apply init_state_other. lia.
    - apply init_state_cols_used.
    - rewrite init_state_frame. apply extends_refl. }
  split; [done|]. simpl. by rewrite <- Hrep.
Qed.

Lemma reports_decided_by_secondary_witness :
  ∃ out,
    run_lookup (two_frames dup_primary dup_secondary) 0 1
      [("ID", "NAME", "ID"); ("ID", "ID", "NAME"); ("ID", "NAME", "NAME")]
      = Some out
    ∧ reported out.2
      = [(2, ("ID", "ID", "NAME"), InvalidIndexError);
         (3, ("ID", "NAME", "NAME"), KeyError "NAME")].
Proof.
  destruct (reports_decided_by_secondary (two_frames dup_primary dup_secondary) 0 1
              [("ID", "NAME", "ID"); ("ID", "ID", "NAME"); ("ID", "NAME", "NAME")])
    as (out & Hrun & Hrep & _).
  - simpl. lia.
  - apply (bool_decide_unpack _). vm_compute. exact I.
  - apply (bool_decide_unpack _). vm_compute. exact I.
  - apply (bool_decide_unpack _). vm_compute. exact I.
  - exists out. split; [exact Hrun|]. rewrite Hrep. vm_compute. reflexivity.
Defined.

(** X14: the script from the two files to the result.  If one of the
    files has no non-blank line, loading fails with [IndexError] and no
    lookup runs.  Otherwise, when the labels of the primary header are
    distinct, the lookup ends with a rectangular result whose labels are
    distinct and start with the primary header, with one row per non-blank
    primary line after the first, whatever the rules are. *)
Theorem load_and_lookup_table content1 content2 (rules : list Rule) :
  ((nonblank_lines content1 = [] ∨ nonblank_lines content2 = []) →
   load_and_lookup (Some content1) (Some content2) rules = Raise IndexError)
  ∧ (∀ first rest,
       nonblank_lines content1 = first :: rest →
       nonblank_lines content2 ≠ [] →
       NoDup (map clean_field (line_fields first)) →
       ∃ out,
         load_and_lookup (Some content1) (Some content2) rules = Ok (Some out)
         ∧ rectangular (result_of out)
         ∧ NoDup (columns (result_of out))
         ∧ map clean_field (line_fields first) `prefix_of` columns (result_of out)
         ∧ length (rows (result_of out)) = length rest).
Proof.
  split.
  - intros Hblank. unfold load_and_lookup.
    destruct (nonblank_lines content1) as [|first rest] eqn:Hlines1.
    + by rewrite (parse_blank content1 None Hlines1).
    + destruct Hblank as [Hblank|Hblank]; [done|].
      rewrite (parse_uncapped content1 first rest Hlines1), bind_Ok.
      by rewrite (parse_blank content2 None Hblank).
  - intros first rest Hlines1 Hlines2 Hnodup. unfold load_and_lookup.
    rewrite (parse_uncapped content1 first rest Hlines1), bind_Ok.
    destruct (nonblank_lines content2) as [|first2 rest2] eqn:Hl2; [done|].
    rewrite (parse_uncapped content2 first2 rest2 Hl2), bind_Ok.
    set (P := mkDataFrame (map clean_field (line_fields first)) _).
    set (Sec := mkDataFrame (map clean_field (line_fields first2)) _).
    assert (rectangular P) as Hrect.
    { unfold rectangular, P. simpl. apply Forall_fmap, Forall_forall.
      intros l _. simpl. by rewrite !length_map, row_at_width_length. }
    destruct (run_lookup_spec (two_frames P Sec) 0 1 rules)
      as (st & Hrun & Hrules & _ & Hext & _).
    change (obj (two_frames P Sec) 0) with P in Hext.
    assert (NoDup (columns (result_frame (next (two_frames P Sec)) st)))
      as Hlabels.
    { eapply (run_rules_nodup (next (two_frames P Sec))); [exact Hrules| |].
      - apply init_state_cols_used.
      - by rewrite init_state_frame. }
    exists (next (two_frames P Sec), st). split; [by rewrite Hrun|].
    change (result_of (next (two_frames P Sec), st))
      with (result_frame (next (two_frames P Sec)) st).
    set (R := result_frame (next (two_frames P Sec)) st) in *.
    split; [by eapply extends_rectangular|]. split; [done|]. split.
    + destruct Hext as (new_cols & _ & Hcols & _).
      rewrite Hcols. by apply prefix_app_r.
    + apply extends_length in Hext.
      rewrite Hext. unfold P. simpl. by rewrite length_map.
Qed.

Lemma load_and_lookup_table_witness :
  ∃ out,
    load_and_lookup (Some abc_content) (Some abc_spaced_content)
      [("A", "A", "B")] = Ok (Some out)
    ∧ rectangular (result_of out)
    ∧ NoDup (columns (result_of out))
    ∧ map clean_field (line_fields "A|B|C") `prefix_of` columns (result_of out)
    ∧ length (rows (result_of out)) = 2.
Proof.
  apply (proj2 (load_and_lookup_table abc_content abc_spaced_content
                  [("A", "A", "B")]) "A|B|C" ["1|2|3"; "4|5"]).
  - vm_compute. reflexivity.
  - vm_compute. discriminate.
  - apply (bool_decide_unpack _). vm_compute. exact I.
Defined.

End ScriptFacts.
